(** * BookService: an in-memory catalog of books

    A shallow embedding of [book_service.py] (the class [BookService] of
    02_08_CodeProject, identical to the one of 02_07_CodeProject_testCases)
    and of its refactored variant (02_11_CodeProject_refactor/endState),
    followed by the properties of the catalog: validation, id generation,
    search, stable sorting, deletion and the equivalence of the refactoring.

    Modelling choices.
    - A Python [str] is a [string]: one [ascii] value per code point, read as
      the code points 0..255 of Unicode (Latin-1).  On this range [str.strip],
      [str.lower], [int] and the comparison of strings are character-wise and
      are modelled exactly.
    - A Python [int] is a [Z]; the limit on the number of digits of
      [str(int)] and [int(str)] conversions is not modelled.
    - Arguments are taken at their annotated types ([str], [Optional[str]],
      [bool]); a call with a value of another type is outside the model.
    - A method is a computation in a state-and-exception monad over the two
      attributes of the object, [books] and [_next_id]. *)

From Stdlib Require Import ZArith NArith List String Ascii Bool Lia.
From Stdlib Require Import Permutation Sorted.
From Stdlib Require Import Decimal DecimalString DecimalPos DecimalZ.
Import ListNotations.

Local Open Scope string_scope.
Local Open Scope Z_scope.

(** ** Python strings *)

Module PyStr.

(** Code point of a character. *)
Definition ord (c : ascii) : N := N_of_ascii c.

(** [str.isspace] on one character: the characters removed by [str.strip()]. *)
Definition is_space (c : ascii) : bool :=
let n := ord c in
((9 <=? n) && (n <=? 13) || (28 <=? n) && (n <=? 32)
 || (n =? 133) || (n =? 160))%N.

(** The whitespace skipped by [int(s)] around the number: unlike [str.strip],
  it leaves the separators 0x1c..0x1f in place. *)
Definition is_int_space (c : ascii) : bool :=
let n := ord c in
((9 <=? n) && (n <=? 13) || (n =? 32) || (n =? 133) || (n =? 160))%N.

Section Strip.
Variable sp : ascii -> bool.

Fixpoint lstrip_with (s : string) : string :=
  match s with
  | EmptyString => EmptyString
  | String c s' => if sp c then lstrip_with s' else s
  end.

Fixpoint rstrip_with (s : string) : string :=
  match s with
  | EmptyString => EmptyString
  | String c s' =>
      match rstrip_with s' with
      | EmptyString => if sp c then EmptyString else String c EmptyString
      | r => String c r
      end
  end.

Definition strip_with (s : string) : string := rstrip_with (lstrip_with s).
End Strip.

(** [s.strip()] *)
Definition strip : string -> string := strip_with is_space.

(** [c.lower()] for one character: A-Z and the capital letters of Latin-1
  (0xC0..0xDE but the multiplication sign 0xD7) move up by 32. *)
Definition lower_char (c : ascii) : ascii :=
let n := ord c in
if ((65 <=? n) && (n <=? 90)
    || (192 <=? n) && (n <=? 222) && negb (n =? 215))%N
then ascii_of_N (n + 32) else c.

(** [s.lower()] *)
Fixpoint lower (s : string) : string :=
match s with
| EmptyString => EmptyString
| String c s' => String (lower_char c) (lower s')
end.

(** [needle in hay] on strings: [needle] occurs in [hay] as a substring. *)
Fixpoint str_in (needle hay : string) : bool :=
prefix needle hay
|| match hay with
   | EmptyString => false
   | String _ hay' => str_in needle hay'
   end.

(** Truth value of a string: [bool(s)]. *)
Definition truthy (s : string) : bool :=
match s with EmptyString => false | _ => true end.

(** [str(n)] for an integer: decimal digits, a minus sign when negative. *)
Definition str (n : Z) : string := NilZero.string_of_int (Z.to_int n).

(** The digits of an integer literal as [int(s)] reads them: a digit, then
  digits each optionally preceded by one underscore.  [after_digit] tells
  whether the previous character was a digit. *)
Fixpoint digits (after_digit : bool) (s : string) : option uint :=
match s with
| EmptyString => if after_digit then Some Nil else None
| String c s' =>
    if Ascii.eqb c "_" then
      if after_digit then digits false s' else None
    else uint_of_char c (digits true s')
end.

(** [int(s)]: surrounding whitespace is skipped, one sign is allowed;
  [None] stands for the ValueError of an invalid literal. *)
Definition parse_int (s : string) : option Z :=
match strip_with is_int_space s with
| String "-" r => option_map (fun d => - Z.of_uint d) (digits false r)
| String "+" r => option_map Z.of_uint (digits false r)
| r => option_map Z.of_uint (digits false r)
end.

End PyStr.

Import PyStr.

(** ** Exceptions and the method monad *)

Inductive exn : Type :=
| ValueError (msg : string)
| TypeError
| KeyError (key : string)
| IndexError.

(** Outcome of a call: a returned value or a raised exception. *)
Inductive except (A : Type) : Type :=
| Return (a : A)
| Raise (e : exn).
Arguments Return {A} a.
Arguments Raise {A} e.

(** A record of the catalog: the dict built by [create_book], with its three
    keys. *)
Record Book : Type := mkBook { id : string; title : string; author : string }.

(** The object: [self.books] and [self._next_id]. *)
Record BookService : Type := mkService { books : list Book; _next_id : Z }.

(** [BookService()], the state after [__init__]. *)
Definition init : BookService := {| books := []; _next_id := 1 |}.

(** A method body: it reads and writes [self] and returns or raises.  When it
    raises, the state is the one reached at the [raise]. *)
Definition M (A : Type) : Type := BookService -> except A * BookService.

Definition ret {A} (a : A) : M A := fun self => (Return a, self).
Definition raise {A} (e : exn) : M A := fun self => (Raise e, self).
Definition bind {A B} (c : M A) (k : A -> M B) : M B :=
  fun self =>
    match c self with
    | (Return a, self') => k a self'
    | (Raise e, self') => (Raise e, self')
    end.
Definition lift {A} (r : except A) : M A := fun self => (r, self).

Definition get_books : M (list Book) := fun self => (Return (books self), self).
Definition set_books (l : list Book) : M unit :=
  fun self => (Return tt, {| books := l; _next_id := _next_id self |}).
Definition get_next_id : M Z := fun self => (Return (_next_id self), self).
Definition set_next_id (n : Z) : M unit :=
  fun self => (Return tt, {| books := books self; _next_id := n |}).

Declare Scope method_scope.
Delimit Scope method_scope with method.
Notation "x <- c ;; k" := (bind c (fun x => k))
  (at level 61, c at next level, right associativity) : method_scope.
Notation "c ;; k" := (bind c (fun _ => k))
  (at level 61, right associativity) : method_scope.
Local Open Scope method_scope.

(** [book[key]] *)
Definition getitem (book : Book) (key : string) : except string :=
  if (key =? "id")%string then Return (id book)
  else if (key =? "title")%string then Return (title book)
  else if (key =? "author")%string then Return (author book)
  else Raise (KeyError key).

(** ** create_book, get_book, delete_book *)

Definition create_error : exn :=
  ValueError "Title and author must be non-empty strings".

Definition create_book (title author : string) : M Book :=
  let title := strip title in
  let author := strip author in
  if negb (truthy title) || negb (truthy author) then raise create_error
  else
    next_id <- get_next_id ;;
    let book := {| id := str next_id; title := title; author := author |} in
    l <- get_books ;;
    set_books (l ++ [book])%list ;;
    set_next_id (next_id + 1) ;;
    ret book.

(** The loop of [get_book]: the first record whose id is [book_id]. *)
Fixpoint get_loop (book_id : string) (l : list Book) : option Book :=
  match l with
  | [] => None
  | book :: l' => if (id book =? book_id)%string then Some book else get_loop book_id l'
  end.

Definition get_book (book_id : string) : M (option Book) :=
  l <- get_books ;;
  ret (get_loop book_id l).

(** [l.pop(i)] for an index [i >= 0], as the list without its element [i];
    Python raises IndexError out of range. *)
Definition pop (i : nat) (l : list Book) : except (list Book) :=
  if (i <? List.length l)%nat then Return (firstn i l ++ skipn (S i) l)%list
  else Raise IndexError.

(** The loop of [delete_book] over [enumerate(self.books)], entered at index
    [i] with [l] still to visit: the index of the first match. *)
Fixpoint delete_loop (book_id : string) (i : nat) (l : list Book) : option nat :=
  match l with
  | [] => None
  | book :: l' =>
      if (id book =? book_id)%string then Some i else delete_loop book_id (S i) l'
  end.

Definition delete_book (book_id : string) : M bool :=
  l <- get_books ;;
  match delete_loop book_id 0 l with
  | Some i => l' <- lift (pop i l) ;; set_books l' ;; ret true
  | None => ret false
  end.

(** ** list.sort(key=..., reverse=...) *)

Section StableSort.
Context {K A : Type}.
Variable lt : K -> K -> bool.

(** Insertion in front of the first element that is not smaller: the
    inserted element comes before the elements of equal key. *)
Fixpoint insert (x : K * A) (l : list (K * A)) : list (K * A) :=
  match l with
  | [] => [x]
  | y :: l' => if lt (fst y) (fst x) then y :: insert x l' else x :: y :: l'
  end.

(** A stable sort that compares keys with [<] only. *)
Fixpoint stable_sort (l : list (K * A)) : list (K * A) :=
  match l with
  | [] => []
  | x :: l' => insert x (stable_sort l')
  end.

(** [x] may stand before [y] in a sorted list. *)
Definition key_le (x y : K * A) : Prop := lt (fst y) (fst x) = false.

(** The elements of key [k], for an equality test [eqb] on keys. *)
Definition with_key (eqb : K -> K -> bool) (k : K) (x : K * A) : bool :=
  eqb (fst x) k.
End StableSort.

(** A sort key: [sort_key] returns an [int] or a [str]. *)
Inductive skey : Type :=
| KInt (n : Z)
| KStr (s : string).

Definition same_kind (a b : skey) : bool :=
  match a, b with
  | KInt _, KInt _ | KStr _, KStr _ => true
  | _, _ => false
  end.

(** [a < b] on keys of one kind: integers by value, strings by code points.
    Between an [int] and a [str] Python raises TypeError; [list_sort] raises
    it before any comparison, so that the last two cases are never used. *)
Definition key_lt (a b : skey) : bool :=
  match a, b with
  | KInt x, KInt y => x <? y
  | KStr x, KStr y => String.ltb x y
  | KInt _, KStr _ => true
  | KStr _, KInt _ => false
  end.

Definition one_kind (keys : list skey) : bool :=
  match keys with
  | [] => true
  | k :: keys' => forallb (same_kind k) keys'
  end.

(** The keys of all elements, in order; the first exception is raised. *)
Fixpoint map_keys {A} (key : A -> except skey) (l : list A) : except (list skey) :=
  match l with
  | [] => Return []
  | x :: l' =>
      match key x with
      | Raise e => Raise e
      | Return k =>
          match map_keys key l' with
          | Raise e => Raise e
          | Return ks => Return (k :: ks)
          end
      end
  end.

(** The sorted list, from the keys [ks] of the elements of [l]: the sort is
    stable, and with [reverse] the list is reversed, sorted and reversed
    again, which keeps elements of equal key in their original order. *)
Definition sorted_by {A} (ks : list skey) (reverse : bool) (l : list A) : list A :=
  let kv := combine ks l in
  let kv := if reverse then List.rev kv else kv in
  let kv := stable_sort key_lt kv in
  let kv := if reverse then List.rev kv else kv in
  map snd kv.

(** [l.sort(key=key, reverse=reverse)], as the sorted list.  The keys are
    computed first; keys of two kinds cannot be compared. *)
Definition list_sort {A} (key : A -> except skey) (reverse : bool) (l : list A)
  : except (list A) :=
  match map_keys key l with
  | Raise e => Raise e
  | Return keys =>
      if negb (one_kind keys) then Raise TypeError
      else Return (sorted_by keys reverse l)
  end.

(** ** list_books *)

(** The set literal [{"id", "title", "author"}]. *)
Definition valid_fields : list string := ["id"; "title"; "author"].

(** [x in valid_fields] *)
Definition mem (x : string) (s : list string) : bool := existsb (String.eqb x) s.

(** [repr] of a set of plain words, in the order of the list (the order in
    which Python prints a set of strings varies from one process to the
    next). *)
Definition repr_set (s : list string) : string :=
  "{" ++ String.concat ", " (map (fun x => "'" ++ x ++ "'") s) ++ "}".

Definition sort_error (sort_by : string) : exn :=
  ValueError ("Invalid sort field: " ++ sort_by ++ ". Must be one of "
              ++ repr_set valid_fields).

(** The error of [int(value)] on an invalid literal (its message, which
    quotes the literal, is cut after the colon). *)
Definition int_error : exn := ValueError "invalid literal for int() with base 10:".

(** [int(s)] *)
Definition int (s : string) : except Z :=
  match parse_int s with
  | Some n => Return n
  | None => Raise int_error
  end.

(** Truth value of an optional string: [None] and [""] are false. *)
Definition provided (o : option string) : option string :=
  match o with
  | Some s => if truthy s then Some s else None
  | None => None
  end.

(** The closure [sort_key] of [list_books]. *)
Definition sort_key (sort_by : string) (book : Book) : except skey :=
  match getitem book sort_by with
  | Raise e => Raise e
  | Return value =>
      if (sort_by =? "id")%string then
        match int value with
        | Return n => Return (KInt n)
        | Raise e => Raise e
        end
      else Return (KStr (lower value))
  end.

(** The search step: the list comprehension of [list_books]. *)
Definition matches (search_lower : string) (book : Book) : bool :=
  str_in search_lower (lower (title book))
  || str_in search_lower (lower (author book)).

Definition search_books (search : option string) (l : list Book) : list Book :=
  match provided search with
  | Some search =>
      let search_lower := lower search in
      filter (matches search_lower) l
  | None => l
  end.

Definition list_books (search sort_by : option string) (ascending : bool)
  : M (list Book) :=
  l <- get_books ;;
  let result := l in
  let result := search_books search result in
  match provided sort_by with
  | Some sort_by =>
      if negb (mem sort_by valid_fields) then raise (sort_error sort_by)
      else lift (list_sort (sort_key sort_by) (negb ascending) result)
  | None => ret result
  end.

(** ** The refactored service (02_11_CodeProject_refactor/endState) *)

Module Refactor.

(** [_sort_books] *)
Definition _sort_books (books : list Book) (sort_by : string) (ascending : bool)
  : M (list Book) :=
  if negb (mem sort_by valid_fields) then raise (sort_error sort_by)
  else
    let sorted_books := books in
    lift (list_sort (sort_key sort_by) (negb ascending) sorted_books).

Definition list_books (search sort_by : option string) (ascending : bool)
  : M (list Book) :=
  l <- get_books ;;
  let result := l in
  let result := search_books search result in
  match provided sort_by with
  | Some sort_by => _sort_books result sort_by ascending
  | None => ret result
  end.

End Refactor.

(** ** Sessions: sequences of calls on one service *)

Inductive call : Type :=
| CreateBook (title author : string)
| GetBook (book_id : string)
| ListBooks (search sort_by : option string) (ascending : bool)
| DeleteBook (book_id : string).

Inductive value : Type :=
| VBook (book : Book)
| VOpt (found : option Book)
| VList (l : list Book)
| VBool (b : bool).

(** One call and what it returned or raised. *)
Definition event : Type := (call * except value)%type.

Definition step (c : call) : M value :=
  match c with
  | CreateBook title author => book <- create_book title author ;; ret (VBook book)
  | GetBook book_id => found <- get_book book_id ;; ret (VOpt found)
  | ListBooks search sort_by ascending =>
      l <- list_books search sort_by ascending ;; ret (VList l)
  | DeleteBook book_id => b <- delete_book book_id ;; ret (VBool b)
  end.

(** The caller catches the exceptions: a call that raises is logged and the
    session goes on from the state the call left. *)
Definition step_from (acc : list event * BookService) (c : call)
  : list event * BookService :=
  let (r, self') := step c (snd acc) in ((fst acc ++ [(c, r)])%list, self').

(** The log and the final state of a session started on a new service. *)
Definition run (cs : list call) : list event * BookService :=
  fold_left step_from cs ([], init).

(** [self] is the state of a service after some session, [log] its log. *)
Inductive reachable : list event -> BookService -> Prop :=
| reach_init : reachable [] init
| reach_step log self c r self' :
    reachable log self ->
    step c self = (r, self') ->
    reachable (log ++ [(c, r)]) self'.

(** The ids issued in a log: those of the records returned by [create_book]. *)
Fixpoint issued (log : list event) : list string :=
  match log with
  | [] => []
  | (CreateBook _ _, Return (VBook book)) :: log' => id book :: issued log'
  | _ :: log' => issued log'
  end.

(** ** Predicates used in the statements *)

(** [needle] occurs in [hay]. *)
Definition Substring (needle hay : string) : Prop :=
  exists pre post, hay = pre ++ needle ++ post.

(** Every character of [s] is whitespace ([s] may be empty). *)
Fixpoint blank (s : string) : Prop :=
  match s with
  | EmptyString => True
  | String c s' => is_space c = true /\ blank s'
  end.

Definition skey_eqb (a b : skey) : bool :=
  match a, b with
  | KInt x, KInt y => x =? y
  | KStr x, KStr y => (x =? y)%string
  | _, _ => false
  end.

(** The elements whose key is [k]. *)
Definition key_is {A} (key : A -> except skey) (k : skey) (x : A) : bool :=
  match key x with
  | Return k' => skey_eqb k' k
  | Raise _ => false
  end.

(** The sort key of [book] under [sort_by] is [k]. *)
Definition has_key (sort_by : string) (k : skey) (book : Book) : bool :=
  key_is (sort_key sort_by) k book.

(** The pairs of a decorated list carry the keys of their elements. *)
Definition decorated {A} (key : A -> except skey) (kv : list (skey * A)) : Prop :=
  Forall (fun p => key (snd p) = Return (fst p)) kv.

(** Every id of the catalog reads as an integer. *)
Definition ids_numeric (l : list Book) : Prop :=
  Forall (fun book => exists n, parse_int (id book) = Some n) l.

(** The record that [create_book] builds from the current counter. *)
Definition new_book (self : BookService) (title author : string) : Book :=
  {| id := str (_next_id self); title := strip title; author := strip author |}.

(** The invariant of the catalog, with the log of the session as history:
    the counter is past every id issued so far, no id was issued twice, the
    records carry issued ids, no two records share an id, and an id that
    [delete_book] removed had been issued before the removal. *)
Definition catalog_inv (log : list event) (self : BookService) : Prop :=
  1 <= _next_id self
  /\ NoDup (issued log)
  /\ (forall i, In i (issued log) -> exists n, i = str n /\ 1 <= n < _next_id self)
  /\ (forall book, In book (books self) -> In (id book) (issued log))
  /\ NoDup (map id (books self))
  /\ (forall log1 i log2,
        log = (log1 ++ (DeleteBook i, Return (VBool true)) :: log2)%list ->
        In i (issued log1)).

(** The state after the two calls of the stability test:
    two records with the same title. *)
Definition same_title : BookService :=
  snd (run [CreateBook "Same Title" "Author A"; CreateBook "Same Title" "Author B"]).

(** The session of the sorting tests: three records out of order. *)
Definition sort_session : list call :=
  [CreateBook "C Book" "Author C"; CreateBook "A Book" "Author A";
   CreateBook "B Book" "Author B"].

(** The state after one call of [create_book], as in the tests of
    invalid sort fields. *)
Definition one_book : BookService :=
  snd (run [CreateBook "Test Book" "Test Author"]).

(** The session of the id test: three records, the second one deleted. *)
Definition id_session : list call :=
  [CreateBook "Book 1" "Author 1"; CreateBook "Book 2" "Author 2";
   CreateBook "Book 3" "Author 3"; DeleteBook "2"].

(** A session that deletes a record and creates two more. *)
Definition reuse_session : list call :=
  [CreateBook "Book 1" "Author 1"; CreateBook "Book 2" "Author 2";
   DeleteBook "2"; ListBooks None (Some "bogus") true; GetBook "2";
   CreateBook "" "nobody"; CreateBook "Book 4" "Author 4"].

(** Eleven records, to compare ids of one and of two digits. *)
Definition eleven_session : list call :=
  map (fun t => CreateBook t "Author")
    ["k"; "j"; "i"; "h"; "g"; "f"; "e"; "d"; "c"; "b"; "a"].

(** The scenario of the demo: two records, the first one deleted. *)
Definition demo_session : list call :=
  [CreateBook "The Great Gatsby" "F. Scott Fitzgerald";
   CreateBook "To Kill a Mockingbird" "Harper Lee";
   ListBooks None None true; DeleteBook "1"; GetBook "1";
   ListBooks None None true].

(** ** Further predicates *)

(** [s] is not empty and has no whitespace at either end. *)
Definition trimmed (s : string) : Prop := s <> "" /\ strip s = s.

(** The id of [a] reads as a smaller number than the id of [b]. *)
Definition id_lt (a b : Book) : Prop :=
  exists m n, parse_int (id a) = Some m /\ parse_int (id b) = Some n /\ m < n.

(** The order between a key and a later key of a sorted result: never
    decreasing when [ascending], never increasing otherwise. *)
Definition key_order (ascending : bool) (a b : skey) : Prop :=
  if ascending then key_lt b a = false else key_lt a b = false.

(** The ids [str(1)], ..., [str(n)]. *)
Definition first_ids (n : nat) : list string :=
  map (fun k => str (Z.of_nat k)) (seq 1 n).

(** ** demo *)

(** [a == b] on records: dicts with the same keys and values. *)
Definition book_eqb (a b : Book) : bool :=
  (id a =? id b)%string && (title a =? title b)%string
  && (author a =? author b)%string.

(** [book in l] *)
Definition book_in (book : Book) (l : list Book) : bool := existsb (book_eqb book) l.

(** What stops a script: an exception of the service or a failed [assert]. *)
Inductive failure : Type :=
| Uncaught (e : exn)
| AssertionError (msg : string).

(** A script works on a service and on the lines printed so far. *)
Definition Script (A : Type) : Type :=
  BookService * list string -> (A + failure) * (BookService * list string).

Definition sret {A} (a : A) : Script A := fun st => (inl a, st).
Definition sfail {A} (f : failure) : Script A := fun st => (inr f, st).
Definition sbind {A B} (c : Script A) (k : A -> Script B) : Script B :=
  fun st =>
    match c st with
    | (inl a, st') => k a st'
    | (inr f, st') => (inr f, st')
    end.

(** A method call on the service of the script. *)
Definition invoke {A} (m : M A) : Script A :=
  fun st =>
    match m (fst st) with
    | (Return a, self') => (inl a, (self', snd st))
    | (Raise e, self') => (inr (Uncaught e), (self', snd st))
    end.

(** [service = BookService()] *)
Definition new_service : Script unit := fun st => (inl tt, (init, snd st)).

(** [assert cond, msg] *)
Definition assert (cond : bool) (msg : string) : Script unit :=
  if cond then sret tt else sfail (AssertionError msg).

(** [print(line)] *)
Definition print (line : string) : Script unit :=
  fun st => (inl tt, (fst st, (snd st ++ [line])%list)).

(** [book[key]] in a script. *)
Definition subscript (book : Book) (key : string) : Script string :=
  match getitem book key with
  | Return v => sret v
  | Raise e => sfail (Uncaught e)
  end.

(** [found[key]] for the result of [get_book]; [None] is not subscriptable. *)
Definition subscript_opt (found : option Book) (key : string) : Script string :=
  match found with
  | Some book => subscript book key
  | None => sfail (Uncaught TypeError)
  end.

Definition is_some {A} (o : option A) : bool :=
  match o with Some _ => true | None => false end.

Declare Scope script_scope.
Delimit Scope script_scope with script.
Notation "x <- c ;; k" := (sbind c (fun x => k))
  (at level 61, c at next level, right associativity) : script_scope.
Notation "c ;; k" := (sbind c (fun _ => k))
  (at level 61, right associativity) : script_scope.

(** [demo()], the same function in 02_07_CodeProject_testCases and in the
    refactored module. *)
Definition demo : Script unit :=
  (new_service ;;
   book1 <- invoke (create_book "The Great Gatsby" "F. Scott Fitzgerald") ;;
   book2 <- invoke (create_book "To Kill a Mockingbird" "Harper Lee") ;;
   book1_id <- subscript book1 "id" ;;
   retrieved_book <- invoke (get_book book1_id) ;;
   assert (is_some retrieved_book) "First book should be retrievable" ;;
   retrieved_title <- subscript_opt retrieved_book "title" ;;
   assert (retrieved_title =? "The Great Gatsby")%string
     "Retrieved book should have correct title" ;;
   retrieved_author <- subscript_opt retrieved_book "author" ;;
   assert (retrieved_author =? "F. Scott Fitzgerald")%string
     "Retrieved book should have correct author" ;;
   all_books <- invoke (list_books None None true) ;;
   assert (List.length all_books =? 2)%nat "Should have 2 books total" ;;
   assert (book_in book1 all_books) "First book should be in the list" ;;
   assert (book_in book2 all_books) "Second book should be in the list" ;;
   book1_id <- subscript book1 "id" ;;
   delete_result <- invoke (delete_book book1_id) ;;
   assert (Bool.eqb delete_result true) "Book deletion should return True" ;;
   book1_id <- subscript book1 "id" ;;
   deleted_book <- invoke (get_book book1_id) ;;
   assert (negb (is_some deleted_book)) "Deleted book should not be retrievable" ;;
   remaining_books <- invoke (list_books None None true) ;;
   assert (List.length remaining_books =? 1)%nat "Should have 1 book remaining" ;;
   assert (book_in book2 remaining_books) "Second book should still be in the list" ;;
   assert (negb (book_in book1 remaining_books)) "First book should not be in the list" ;;
   print "Demo completed successfully! All assertions passed.")%script.

(** * Properties *)

(** ** Examples *)

Example strip_ex : strip "  The Great Gatsby  " = "The Great Gatsby".
Proof. reflexivity. Qed.

Example lower_ex : lower "F. Scott Fitzgerald" = "f. scott fitzgerald".
Proof. reflexivity. Qed.

Example str_in_ex :
  str_in "gatsby" (lower "The Great Gatsby") = true
  /\ str_in "   " "the great gatsby" = false
  /\ str_in "" "" = true.
Proof. repeat split. Qed.

Example parse_int_ex :
  map parse_int ["12"; " 1_0 "; "-0"; "007"; "+5"; "1__0"; "_1"; "1_"; ""; "+ 1"; "abc"]
  = [Some 12; Some 10; Some 0; Some 7; Some 5; None; None; None; None; None; None].
Proof. reflexivity. Qed.

(** Ids are sorted as numbers: "2" before "10". *)
Example sort_by_id_ex :
  let self := snd (run eleven_session) in
  match fst (list_books (Some "a") (Some "id") false self) with
  | Return l => map id l = ["11"; "10"; "9"; "8"; "7"; "6"; "5"; "4"; "3"; "2"; "1"]
  | Raise _ => False
  end
  /\ match fst (list_books (Some "a") (Some "title") true self) with
     | Return l => map id l = ["11"; "10"; "9"; "8"; "7"; "6"; "5"; "4"; "3"; "2"; "1"]
     | Raise _ => False
     end.
Proof. split; reflexivity. Qed.

Example demo_ex :
  map snd (fst (run demo_session))
  = [Return (VBook (mkBook "1" "The Great Gatsby" "F. Scott Fitzgerald"));
     Return (VBook (mkBook "2" "To Kill a Mockingbird" "Harper Lee"));
     Return (VList [mkBook "1" "The Great Gatsby" "F. Scott Fitzgerald";
                    mkBook "2" "To Kill a Mockingbird" "Harper Lee"]);
     Return (VBool true);
     Return (VOpt None);
     Return (VList [mkBook "2" "To Kill a Mockingbird" "Harper Lee"])].
Proof. reflexivity. Qed.

(** An id that is not a number makes the sort by id raise the error of
    [int]; no session produces such an id. *)
Example sort_by_id_error_ex :
  fst (list_books None (Some "id") true
         {| books := [mkBook "x" "T" "A"]; _next_id := 1 |})
  = Raise int_error.
Proof. reflexivity. Qed.

Example str_ex : map str [0; 1; 10; 42; -5] = ["0"; "1"; "10"; "42"; "-5"].
Proof. reflexivity. Qed.


(** ** Strings *)

Lemma lstrip_empty s : lstrip_with is_space s = "" <-> blank s.
Proof.
  induction s as [|c s IH]; simpl.
  - tauto.
  - destruct (is_space c).
    + rewrite IH. tauto.
    + split; [discriminate | intros [H _]; discriminate].
Qed.

Lemma lstrip_head s c r :
  lstrip_with is_space s = String c r -> is_space c = false.
Proof.
  induction s as [|a s IH]; simpl; [discriminate|].
  destruct (is_space a) eqn:E; [exact IH|].
  intros [= <- _]. exact E.
Qed.

Lemma rstrip_empty s : rstrip_with is_space s = "" <-> blank s.
Proof.
  induction s as [|c s IH]; simpl.
  - tauto.
  - destruct (rstrip_with is_space s) eqn:E.
    + destruct (is_space c).
      * tauto.
      * split; [discriminate | intros [H _]; discriminate].
    + split; [discriminate|].
      intros [_ H]. apply IH in H. discriminate.
Qed.

(** A string is empty after trimming exactly when it is empty or made of
    whitespace only. *)
Lemma strip_empty_iff s : strip s = "" <-> blank s.
Proof.
  unfold strip, strip_with. rewrite rstrip_empty. split.
  - intros H. apply lstrip_empty.
    destruct (lstrip_with is_space s) as [|c r] eqn:E; [reflexivity|].
    apply lstrip_head in E. destruct H as [H _]. congruence.
  - intros H. apply lstrip_empty in H. rewrite H. exact I.
Qed.

Lemma prefix_spec needle hay :
  prefix needle hay = true <-> exists post, hay = needle ++ post.
Proof.
  revert hay. induction needle as [|a n IH]; intros hay; simpl.
  - split; [intros _; now exists hay | now destruct hay].
  - destruct hay as [|b h].
    + split; [discriminate | intros [post H]; discriminate].
    + simpl. destruct (ascii_dec a b) as [->|Hab].
      * rewrite IH. split; intros [post H]; exists post; congruence.
      * split; [discriminate | intros [post H]; congruence].
Qed.

(** [str_in] decides the occurrence of a substring. *)
Lemma str_in_spec needle hay :
  str_in needle hay = true <-> Substring needle hay.
Proof.
  unfold Substring. induction hay as [|b h IH].
  - cbn [str_in]. rewrite orb_false_r, prefix_spec. split.
    + intros [post H]. now exists "", post.
    + intros [pre [post H]]. destruct pre; [now exists post | discriminate].
  - cbn [str_in]. rewrite orb_true_iff, IH, prefix_spec. split.
    + intros [[post H] | [pre [post H]]].
      * now exists "", post.
      * exists (String b pre), post. simpl. now rewrite H.
    + intros [pre [post H]]. destruct pre as [|c pre].
      * left. now exists post.
      * right. exists pre, post. simpl in H. congruence.
Qed.

(** *** [int(str(n)) == n] *)

Lemma digits_string_of_uint d b :
  d <> Nil \/ b = true ->
  digits b (NilEmpty.string_of_uint d) = Some d.
Proof.
  revert b. induction d; intros b Hb; simpl;
    try (rewrite IHd by (now right); reflexivity).
  destruct Hb as [Hb | ->]; [congruence | reflexivity].
Qed.

Lemma lstrip_string_of_uint d :
  lstrip_with is_int_space (NilEmpty.string_of_uint d) = NilEmpty.string_of_uint d.
Proof. destruct d; reflexivity. Qed.

Lemma rstrip_string_of_uint d :
  rstrip_with is_int_space (NilEmpty.string_of_uint d) = NilEmpty.string_of_uint d.
Proof.
  induction d; [reflexivity | ..];
    cbn [NilEmpty.string_of_uint rstrip_with]; rewrite IHd;
    destruct (NilEmpty.string_of_uint d); reflexivity.
Qed.

Lemma parse_int_pos p : parse_int (NilEmpty.string_of_uint (Pos.to_uint p)) = Some (Z.pos p).
Proof.
  unfold parse_int, strip_with.
  rewrite lstrip_string_of_uint, rstrip_string_of_uint.
  pose proof (Unsigned.to_uint_nonnil p) as Hnil.
  pose proof (Unsigned.of_to p) as Hp.
  assert (Hd : digits false (NilEmpty.string_of_uint (Pos.to_uint p))
               = Some (Pos.to_uint p))
    by (apply digits_string_of_uint; now left).
  assert (Hv : Z.of_uint (Pos.to_uint p) = Z.pos p)
    by (unfold Z.of_uint; now rewrite Hp).
  destruct (Pos.to_uint p) eqn:E; try congruence;
    cbn [NilEmpty.string_of_uint] in *; cbv iota beta;
    rewrite Hd; cbn [option_map]; now rewrite Hv.
Qed.

Lemma parse_int_neg p :
  parse_int (String "-" (NilEmpty.string_of_uint (Pos.to_uint p))) = Some (Z.neg p).
Proof.
  unfold parse_int, strip_with.
  change (lstrip_with is_int_space (String "-" ?s)) with (String "-" s).
  cbn [rstrip_with]. rewrite rstrip_string_of_uint.
  pose proof (Unsigned.to_uint_nonnil p) as Hnil.
  pose proof (Unsigned.of_to p) as Hp.
  assert (Hd : digits false (NilEmpty.string_of_uint (Pos.to_uint p))
               = Some (Pos.to_uint p))
    by (apply digits_string_of_uint; now left).
  assert (Hv : Z.of_uint (Pos.to_uint p) = Z.pos p)
    by (unfold Z.of_uint; now rewrite Hp).
  destruct (Pos.to_uint p) eqn:E; try congruence;
    cbn [NilEmpty.string_of_uint] in *; cbv iota beta;
    rewrite Hd; cbn [option_map]; now rewrite Hv.
Qed.

Lemma string_of_uint_nonnil d :
  d <> Nil -> NilZero.string_of_uint d = NilEmpty.string_of_uint d.
Proof. destruct d; [congruence | reflexivity ..]. Qed.

(** Reading back the decimal form of an integer gives the integer. *)
Lemma parse_int_str n : parse_int (str n) = Some n.
Proof.
  unfold str. destruct n as [|p|p]; [reflexivity | ..];
    cbn [Z.to_int NilZero.string_of_int];
    rewrite string_of_uint_nonnil by apply Unsigned.to_uint_nonnil.
  - apply parse_int_pos.
  - apply parse_int_neg.
Qed.

Lemma str_inj n m : str n = str m -> n = m.
Proof.
  intros H. pose proof (parse_int_str n) as Hn.
  rewrite H, parse_int_str in Hn. congruence.
Qed.

(** ** create_book *)

Lemma create_book_valid self title author :
  strip title <> "" -> strip author <> "" ->
  create_book title author self
  = (Return (new_book self title author),
     {| books := books self ++ [new_book self title author];
        _next_id := _next_id self + 1 |}).
Proof.
  intros Ht Ha. unfold create_book.
  destruct (strip title) eqn:Et; [congruence|].
  destruct (strip author) eqn:Ea; [congruence|].
  unfold new_book. rewrite Et, Ea. reflexivity.
Qed.

Lemma create_book_invalid self title author :
  strip title = "" \/ strip author = "" ->
  create_book title author self = (Raise create_error, self).
Proof.
  intros H. unfold create_book.
  destruct H as [-> | ->]; [reflexivity|].
  destruct (strip title); reflexivity.
Qed.

Lemma strip_dec s : {strip s = ""} + {strip s <> ""}.
Proof. destruct (strip s); [now left | now right]. Qed.

(** The two outcomes of [create_book]. *)
Lemma create_book_cases self title author :
  (strip title <> "" /\ strip author <> ""
   /\ create_book title author self
      = (Return (new_book self title author),
         {| books := books self ++ [new_book self title author];
            _next_id := _next_id self + 1 |}))
  \/ ((strip title = "" \/ strip author = "")
      /\ create_book title author self = (Raise create_error, self)).
Proof.
  destruct (strip_dec title) as [Ht|Ht]; [right; split; [now left|] |].
  - apply create_book_invalid. now left.
  - destruct (strip_dec author) as [Ha|Ha]; [right; split; [now right|] |].
    + apply create_book_invalid. now right.
    + left. repeat split; trivial. now apply create_book_valid.
Qed.

(** ** get_book and delete_book *)

Lemma delete_loop_some book_id l : forall i j,
  delete_loop book_id i l = Some j ->
  exists l1 book l2,
    l = (l1 ++ book :: l2)%list /\ j = (i + List.length l1)%nat
    /\ id book = book_id /\ ~ In book_id (map id l1).
Proof.
  induction l as [|b l IH]; intros i j; simpl; [discriminate|].
  destruct (String.eqb_spec (id b) book_id) as [E|E].
  - intros [= <-]. exists [], b, l. simpl. repeat split; auto with arith.
  - intros H. apply IH in H. destruct H as (l1 & book & l2 & -> & -> & Hb & Hn).
    exists (b :: l1), book, l2. simpl. repeat split; trivial; try lia.
    intros [H|H]; auto.
Qed.

Lemma delete_loop_none book_id l : forall i,
  delete_loop book_id i l = None <-> ~ In book_id (map id l).
Proof.
  induction l as [|b l IH]; intros i; simpl; [tauto|].
  destruct (String.eqb_spec (id b) book_id) as [E|E].
  - split; [discriminate | intros H; exfalso; auto].
  - rewrite IH. tauto.
Qed.

Lemma pop_middle (l1 l2 : list Book) book :
  pop (List.length l1) (l1 ++ book :: l2) = Return (l1 ++ l2)%list.
Proof.
  unfold pop. rewrite length_app. simpl.
  destruct (Nat.ltb_spec (List.length l1) (List.length l1 + S (List.length l2)));
    [|lia].
  f_equal. induction l1 as [|x l1 IH]; simpl in *; [reflexivity|].
  f_equal. apply IH. lia.
Qed.

Lemma delete_book_present self book_id :
  In book_id (map id (books self)) ->
  exists l1 book l2,
    books self = (l1 ++ book :: l2)%list /\ id book = book_id
    /\ ~ In book_id (map id l1)
    /\ delete_book book_id self
       = (Return true, {| books := l1 ++ l2; _next_id := _next_id self |}).
Proof.
  intros Hin. unfold delete_book, bind, get_books.
  destruct (delete_loop book_id 0 (books self)) as [j|] eqn:E.
  - apply delete_loop_some in E.
    destruct E as (l1 & book & l2 & Hl & -> & Hb & Hn).
    exists l1, book, l2. repeat split; trivial.
    rewrite Hl. simpl. unfold lift. rewrite pop_middle. reflexivity.
  - apply delete_loop_none in E. contradiction.
Qed.

Lemma delete_book_absent self book_id :
  ~ In book_id (map id (books self)) ->
  delete_book book_id self = (Return false, self).
Proof.
  intros Hn. unfold delete_book, bind, get_books.
  apply (delete_loop_none _ _ 0%nat) in Hn. now rewrite Hn.
Qed.

Lemma in_ids_dec book_id (l : list Book) :
  {In book_id (map id l)} + {~ In book_id (map id l)}.
Proof. apply in_dec, string_dec. Qed.

(** ** list_books: the shape of a call *)

Lemma list_books_eq search sort_by ascending self :
  list_books search sort_by ascending self
  = (match provided sort_by with
     | Some sort_by =>
         if negb (mem sort_by valid_fields) then Raise (sort_error sort_by)
         else list_sort (sort_key sort_by) (negb ascending)
                (search_books search (books self))
     | None => Return (search_books search (books self))
     end, self).
Proof.
  unfold list_books, bind, get_books.
  destruct (provided sort_by) as [sb|]; [|reflexivity].
  destruct (negb (mem sb valid_fields)); reflexivity.
Qed.

(** [list_books] does not modify the catalog. *)
Lemma list_books_state search sort_by ascending self :
  snd (list_books search sort_by ascending self) = self.
Proof. now rewrite list_books_eq. Qed.

(** ** Sessions and the invariant of the catalog *)

Lemma issued_app log1 log2 : issued (log1 ++ log2) = (issued log1 ++ issued log2)%list.
Proof.
  induction log1 as [|[c r] log1 IH]; [reflexivity|].
  destruct c; simpl; try exact IH.
  destruct r as [[]|]; simpl; try exact IH. now rewrite IH.
Qed.

Lemma run_snoc cs c :
  run (cs ++ [c]) = step_from (run cs) c.
Proof. unfold run. now rewrite fold_left_app. Qed.

(** The executable sessions are the reachable states. *)
Lemma run_reachable cs : reachable (fst (run cs)) (snd (run cs)).
Proof.
  induction cs as [|c cs IH] using rev_ind; [constructor|].
  rewrite run_snoc. unfold step_from.
  destruct (step c (snd (run cs))) as [r self'] eqn:E. simpl.
  econstructor; eassumption.
Qed.

Lemma reachable_run log self :
  reachable log self -> exists cs, run cs = (log, self).
Proof.
  induction 1 as [|log self c r self' _ [cs IH] Hstep].
  - now exists [].
  - exists (cs ++ [c])%list. rewrite run_snoc, IH. unfold step_from. simpl.
    now rewrite Hstep.
Qed.

Lemma step_create title author self :
  step (CreateBook title author) self
  = (let (r, self') := create_book title author self in
     (match r with Return book => Return (VBook book) | Raise e => Raise e end,
      self')).
Proof.
  unfold step, bind. destruct (create_book title author self) as [[b|e] s']; reflexivity.
Qed.

Lemma step_delete book_id self :
  step (DeleteBook book_id) self
  = (let (r, self') := delete_book book_id self in
     (match r with Return b => Return (VBool b) | Raise e => Raise e end, self')).
Proof.
  unfold step, bind. destruct (delete_book book_id self) as [[b|e] s']; reflexivity.
Qed.

Lemma step_get book_id self :
  step (GetBook book_id) self = (Return (VOpt (get_loop book_id (books self))), self).
Proof. reflexivity. Qed.

Lemma step_list search sort_by ascending self :
  exists r, step (ListBooks search sort_by ascending) self = (r, self)
            /\ forall book, r <> Return (VBook book).
Proof.
  unfold step, bind. rewrite list_books_eq.
  match goal with |- context [match ?x with Return _ => _ | Raise _ => _ end] =>
    destruct x as [l|e] end; eexists; (split; [reflexivity | discriminate]).
Qed.

Lemma catalog_inv_init : catalog_inv [] init.
Proof.
  unfold catalog_inv. simpl. repeat split; try constructor; try tauto; try lia.
  intros [|e log1] i log2 H; discriminate.
Qed.

(** A log extended by an event that neither issues an id nor changes the
    records keeps the invariant. *)
Lemma catalog_inv_silent log self c r :
  catalog_inv log self ->
  issued [(c, r)] = [] ->
  (forall i, (c, r) = (DeleteBook i, Return (VBool true)) -> In i (map id (books self))) ->
  forall self', books self' = books self -> _next_id self' = _next_id self ->
  catalog_inv (log ++ [(c, r)]) self'.
Proof.
  intros (H1 & H2 & H3 & H4 & H5 & H6) Hiss Hdel self' Hb Hn.
  unfold catalog_inv. rewrite issued_app, Hiss, app_nil_r, Hb, Hn.
  repeat split; trivial.
  intros log1 i log2 E.
  destruct log2 as [|e log2] using rev_ind.
  - apply app_inj_tail in E. destruct E as [<- E].
    apply Hdel in E. apply in_map_iff in E. destruct E as (b & <- & Hin).
    now apply H4.
  - clear IHlog2. rewrite app_comm_cons, app_assoc in E.
    apply app_inj_tail in E. destruct E as [E _]. eapply H6; eassumption.
Qed.

Lemma catalog_inv_step log self c r self' :
  catalog_inv log self -> step c self = (r, self') ->
  catalog_inv (log ++ [(c, r)]) self'.
Proof.
  intros Hinv Hstep. destruct c as [t a|i|s sb asc|i].
  - (* create_book *)
    rewrite step_create in Hstep.
    destruct (create_book_cases self t a) as [(Ht & Ha & E)|[Hbad E]];
      rewrite E in Hstep; injection Hstep as <- <-.
    + destruct Hinv as (H1 & H2 & H3 & H4 & H5 & H6).
      assert (Hfresh : ~ In (str (_next_id self)) (issued log)).
      { intros Hin. apply H3 in Hin. destruct Hin as (n & En & Hn).
        apply str_inj in En. lia. }
      unfold catalog_inv. rewrite issued_app. simpl.
      split; [lia|]. split.
      { apply NoDup_app; repeat split; trivial.
        - repeat constructor. simpl. tauto.
        - intros x Hx [<-|[]]. contradiction. }
      split.
      { intros i Hi. apply in_app_or in Hi. destruct Hi as [Hi|[<-|[]]].
        - apply H3 in Hi. destruct Hi as (n & -> & Hn). exists n. split; [easy|lia].
        - exists (_next_id self). split; [easy|lia]. }
      split.
      { intros b Hb. apply in_app_or in Hb. apply in_or_app.
        destruct Hb as [Hb|[<-|[]]]; [left; now apply H4 | right; now left]. }
      split.
      { rewrite map_app. simpl. apply NoDup_app; repeat split; trivial.
        - repeat constructor. simpl. tauto.
        - intros x Hx [<-|[]]. apply Hfresh.
          apply in_map_iff in Hx. destruct Hx as (b & <- & Hb). now apply H4. }
      intros log1 i log2 E'.
      destruct log2 as [|e log2] using rev_ind.
      * apply app_inj_tail in E'. destruct E' as [_ E']. discriminate.
      * clear IHlog2. rewrite app_comm_cons, app_assoc in E'.
        apply app_inj_tail in E'. destruct E' as [E' _]. eapply H6; eassumption.
    + apply catalog_inv_silent with (self := self); trivial. discriminate.
  - (* get_book *)
    rewrite step_get in Hstep. injection Hstep as <- <-.
    apply catalog_inv_silent with (self := self); trivial. discriminate.
  - (* list_books *)
    destruct (step_list s sb asc self) as (r' & E & Hr).
    rewrite E in Hstep. injection Hstep as <- <-.
    apply catalog_inv_silent with (self := self); trivial. discriminate.
  - (* delete_book *)
    rewrite step_delete in Hstep.
    destruct (in_ids_dec i (books self)) as [Hin|Hout].
    + destruct (delete_book_present self i Hin) as (l1 & b & l2 & Hl & Hb & Hn & E).
      rewrite E in Hstep. injection Hstep as <- <-.
      destruct Hinv as (H1 & H2 & H3 & H4 & H5 & H6).
      unfold catalog_inv. rewrite issued_app. simpl. rewrite app_nil_r.
      repeat split; trivial.
      * intros x Hx. apply H4. rewrite Hl.
        apply in_app_or in Hx. apply in_or_app. simpl. tauto.
      * rewrite Hl, map_app in H5. simpl in H5. apply NoDup_remove_1 in H5.
        now rewrite map_app.
      * intros log1 j log2 E'.
        destruct log2 as [|e log2] using rev_ind.
        -- apply app_inj_tail in E'. destruct E' as [<- [= <-]].
           apply in_map_iff in Hin. destruct Hin as (x & <- & Hx). now apply H4.
        -- clear IHlog2. rewrite app_comm_cons, app_assoc in E'.
           apply app_inj_tail in E'. destruct E' as [E' _]. eapply H6; eassumption.
    + rewrite (delete_book_absent self i Hout) in Hstep. injection Hstep as <- <-.
      apply catalog_inv_silent with (self := self); trivial. discriminate.
Qed.

(** Every reachable state satisfies the invariant. *)
Lemma reachable_inv log self : reachable log self -> catalog_inv log self.
Proof.
  induction 1 as [|log self c r self' _ IH Hstep].
  - apply catalog_inv_init.
  - eapply catalog_inv_step; eassumption.
Qed.

Lemma issued_in log title author book :
  In (CreateBook title author, Return (VBook book)) log -> In (id book) (issued log).
Proof.
  induction log as [|[c r] log IH]; simpl; [tauto|].
  intros [[= -> ->]|H]; [now left|].
  apply IH in H. destruct c; trivial. destruct r as [[]|]; trivial. now right.
Qed.

(** ** create_book: the claims *)

(** C4. For every catalog state and every (title, author) pair that is
    non-empty after trimming, [create_book] returns a record whose id is the
    string of the current counter and whose title and author are the trimmed
    inputs, appends that record at the end of the collection and increments
    the counter by one; in a state reached by a session, the returned id was
    never issued before, is carried by no record, and is numerically strictly
    greater than every id issued before. *)
Theorem create_book_issues_next_id self t a :
  strip t <> "" -> strip a <> "" ->
  exists book self',
    create_book t a self = (Return book, self')
    /\ id book = str (_next_id self)
    /\ title book = strip t
    /\ author book = strip a
    /\ books self' = (books self ++ [book])%list
    /\ _next_id self' = _next_id self + 1
    /\ forall log, reachable log self ->
         ~ In (id book) (issued log)
         /\ ~ In (id book) (map id (books self))
         /\ forall i, In i (issued log) ->
              exists n m, parse_int i = Some n /\ parse_int (id book) = Some m
                          /\ n < m.
Proof.
  intros Ht Ha. exists (new_book self t a). eexists.
  split; [now apply create_book_valid|]. simpl.
  repeat split; trivial.
  - intros Hin. apply reachable_inv in H. destruct H as (_ & _ & H3 & _).
    apply H3 in Hin. destruct Hin as (n & E & Hn). apply str_inj in E. lia.
  - intros Hin. apply reachable_inv in H. destruct H as (_ & _ & H3 & H4 & _).
    apply in_map_iff in Hin. destruct Hin as (b & E & Hb).
    apply H4 in Hb. rewrite E in Hb.
    apply H3 in Hb. destruct Hb as (n & E' & Hn). apply str_inj in E'. lia.
  - intros i Hi. apply reachable_inv in H. destruct H as (_ & _ & H3 & _).
    apply H3 in Hi. destruct Hi as (n & -> & Hn).
    exists n, (_next_id self). rewrite !parse_int_str. repeat split; lia.
Qed.

Lemma create_book_issues_next_id_witness :
  strip "  Book 4 " <> "" /\ strip "Author 4" <> ""
  /\ exists book self',
       create_book "  Book 4 " "Author 4" (snd (run id_session)) = (Return book, self')
       /\ id book = "4" /\ title book = "Book 4" /\ author book = "Author 4"
       /\ ~ In (id book) (issued (fst (run id_session))).
Proof.
  split; [discriminate|]. split; [discriminate|].
  destruct (create_book_issues_next_id (snd (run id_session)) "  Book 4 " "Author 4")
    as (book & self' & E & Hid & Ht & Ha & _ & _ & Hlog); try discriminate.
  exists book, self'. repeat split; trivial.
  apply (Hlog (fst (run id_session))), run_reachable.
Defined.

(** C8. For every catalog state and every pair of strings, [create_book]
    raises if and only if the title or the author is empty after trimming,
    that is, is empty or consists only of whitespace; the exception is the
    validation error. *)
Theorem create_book_raises_iff self t a :
  ((exists e, fst (create_book t a self) = Raise e)
   <-> (strip t = "" \/ strip a = ""))
  /\ (forall e, fst (create_book t a self) = Raise e -> e = create_error)
  /\ (strip t = "" <-> blank t)
  /\ (strip a = "" <-> blank a).
Proof.
  repeat split; try apply strip_empty_iff.
  - intros [e He].
    destruct (create_book_cases self t a) as [(Ht & Ha & E)|[Hbad E]]; trivial.
    rewrite E in He. discriminate.
  - intros H. exists create_error. now rewrite create_book_invalid.
  - intros e He.
    destruct (create_book_cases self t a) as [(Ht & Ha & E)|[Hbad E]];
      rewrite E in He; simpl in He; congruence.
Qed.

Lemma create_book_raises_iff_witness :
  fst (create_book "   " "Author" init) = Raise create_error
  /\ blank "   "
  /\ exists book, fst (create_book " T " "Author" init) = Return book.
Proof.
  destruct (create_book_raises_iff init "   " "Author") as (H1 & H2 & H3 & _).
  destruct (proj2 H1 (or_introl eq_refl)) as [e He].
  split; [rewrite He; f_equal; now apply H2|].
  split; [now apply H3|].
  now eexists.
Defined.

(** C10. When [create_book] raises, the catalog is unchanged: the collection
    is the same and the counter is not incremented, so that the next
    successful call still gets the id of the current counter. *)
Theorem create_book_failure_keeps_state self t a e :
  fst (create_book t a self) = Raise e ->
  snd (create_book t a self) = self
  /\ books (snd (create_book t a self)) = books self
  /\ _next_id (snd (create_book t a self)) = _next_id self
  /\ forall t' a', strip t' <> "" -> strip a' <> "" ->
       fst (create_book t' a' (snd (create_book t a self)))
       = Return (new_book self t' a').
Proof.
  intros He.
  destruct (create_book_cases self t a) as [(Ht & Ha & E)|[Hbad E]];
    rewrite E in *; simpl in *; [discriminate|].
  repeat split. intros t' a' Ht' Ha'. now rewrite create_book_valid.
Qed.

Lemma create_book_failure_keeps_state_witness :
  fst (create_book "Title" "   " one_book) = Raise create_error
  /\ snd (create_book "Title" "   " one_book) = one_book
  /\ fst (create_book "Title" "Author" (snd (create_book "Title" "   " one_book)))
     = Return {| id := "2"; title := "Title"; author := "Author" |}.
Proof.
  assert (He : fst (create_book "Title" "   " one_book) = Raise create_error)
    by reflexivity.
  destruct (create_book_failure_keeps_state one_book "Title" "   " create_error He)
    as (H1 & _ & _ & H4).
  split; [exact He|]. split; [exact H1|].
  apply (H4 "Title" "Author"); discriminate.
Defined.

(** ** The invariant: the claim *)

(** C5. Every catalog state reached from the empty catalog (counter 1) by a
    sequence of [create_book], [get_book], [list_books] and [delete_book]
    calls satisfies: the ids of the records are pairwise distinct, every id
    ever issued reads as a number smaller than the counter, no id was issued
    twice, and an id removed by [delete_book] is not issued by any later
    [create_book]. *)
Theorem reachable_ids_unique_never_reused log self :
  reachable log self ->
  NoDup (map id (books self))
  /\ (forall book, In book (books self) -> In (id book) (issued log))
  /\ (forall i, In i (issued log) ->
        exists n, parse_int i = Some n /\ 1 <= n < _next_id self)
  /\ NoDup (issued log)
  /\ (forall log1 i log2 t a book,
        log = (log1 ++ (DeleteBook i, Return (VBool true)) :: log2)%list ->
        In (CreateBook t a, Return (VBook book)) log2 ->
        id book <> i).
Proof.
  intros H. apply reachable_inv in H. destruct H as (H1 & H2 & H3 & H4 & H5 & H6).
  repeat split; trivial.
  - intros i Hi. apply H3 in Hi. destruct Hi as (n & -> & Hn).
    exists n. now rewrite parse_int_str.
  - intros log1 i log2 t a book E Hin Heq.
    pose proof (H6 _ _ _ E) as Hi. apply issued_in in Hin.
    rewrite E, issued_app in H2. simpl in H2.
    rewrite Heq in Hin.
    revert Hi Hin. generalize (issued log1) (issued log2) H2. clear.
    intros l1 l2 Hnd Hi1 Hi2. induction l1 as [|x l1 IH]; [easy|].
    simpl in Hnd. inversion Hnd as [|? ? Hx Hnd']; subst.
    destruct Hi1 as [->|Hi1]; [|now apply IH].
    apply Hx, in_or_app. now right.
Qed.

Lemma reachable_ids_unique_never_reused_witness :
  reachable (fst (run reuse_session)) (snd (run reuse_session))
  /\ map id (books (snd (run reuse_session))) = ["1"; "3"]
  /\ issued (fst (run reuse_session)) = ["1"; "2"; "3"]
  /\ _next_id (snd (run reuse_session)) = 4
  /\ NoDup (map id (books (snd (run reuse_session))))
  /\ NoDup (issued (fst (run reuse_session))).
Proof.
  pose proof (run_reachable reuse_session) as Hr.
  destruct (reachable_ids_unique_never_reused _ _ Hr) as (H1 & _ & _ & H4 & _).
  repeat split; trivial.
Defined.

(** ** delete_book: the claim *)

(** C9. For every catalog state and every id, [delete_book] returns true and
    removes the (first) record with exactly that id when there is one, and
    returns false and leaves the catalog unchanged when there is none; it
    never raises.  Hence, the ids of a catalog being pairwise distinct, two
    calls with the id of a record return true then false, and the second
    call changes nothing. *)
Theorem delete_book_spec self book_id :
  (In book_id (map id (books self)) ->
   exists l1 book l2,
     books self = (l1 ++ book :: l2)%list
     /\ id book = book_id /\ ~ In book_id (map id l1)
     /\ delete_book book_id self
        = (Return true, {| books := l1 ++ l2; _next_id := _next_id self |}))
  /\ (~ In book_id (map id (books self)) ->
      delete_book book_id self = (Return false, self))
  /\ (forall e, fst (delete_book book_id self) <> Raise e)
  /\ (NoDup (map id (books self)) -> In book_id (map id (books self)) ->
      fst (delete_book book_id self) = Return true
      /\ ~ In book_id (map id (books (snd (delete_book book_id self))))
      /\ delete_book book_id (snd (delete_book book_id self))
         = (Return false, snd (delete_book book_id self))).
Proof.
  split; [apply delete_book_present|].
  split; [apply delete_book_absent|].
  split.
  - intros e. destruct (in_ids_dec book_id (books self)) as [Hin|Hout].
    + destruct (delete_book_present self book_id Hin) as (l1 & b & l2 & _ & _ & _ & E).
      now rewrite E.
    + now rewrite delete_book_absent.
  - intros Hnd Hin.
    destruct (delete_book_present self book_id Hin) as (l1 & b & l2 & Hl & Hb & Hn & E).
    rewrite E. simpl.
    assert (Hgone : ~ In book_id (map id (l1 ++ l2))).
    { rewrite Hl, map_app in Hnd. simpl in Hnd. apply NoDup_remove_2 in Hnd.
      rewrite Hb in Hnd. now rewrite map_app. }
    repeat split; trivial. now apply delete_book_absent.
Qed.

Lemma delete_book_spec_witness :
  reachable (fst (run id_session)) (snd (run id_session))
  /\ In "3" (map id (books (snd (run id_session))))
  /\ fst (delete_book "3" (snd (run id_session))) = Return true
  /\ map id (books (snd (delete_book "3" (snd (run id_session))))) = ["1"]
  /\ delete_book "3" (snd (delete_book "3" (snd (run id_session))))
     = (Return false, snd (delete_book "3" (snd (run id_session))))
  /\ delete_book "2" (snd (run id_session)) = (Return false, snd (run id_session)).
Proof.
  pose proof (run_reachable id_session) as Hr.
  destruct (reachable_inv _ _ Hr) as (_ & _ & _ & _ & Hnd & _).
  destruct (delete_book_spec (snd (run id_session)) "3") as (_ & _ & _ & H4).
  destruct (delete_book_spec (snd (run id_session)) "2") as (_ & H2 & _).
  assert (Hin : In "3" (map id (books (snd (run id_session)))))
    by (simpl; tauto).
  destruct (H4 Hnd Hin) as (Ha & _ & Hc).
  split; [exact Hr|]. split; [exact Hin|]. split; [exact Ha|].
  split; [reflexivity|]. split; [exact Hc|].
  apply H2. simpl. intros [H|[H|[]]]; discriminate.
Defined.

(** ** The stable sort *)

Section StableSortFacts.
Context {K A : Type}.
Variable lt : K -> K -> bool.
Variable eqb : K -> K -> bool.

Hypothesis lt_irrefl : forall a, lt a a = false.
Hypothesis lt_trans : forall a b c, lt a b = true -> lt b c = true -> lt a c = true.
Hypothesis lt_total : forall a b, lt a b = false -> lt b a = false -> a = b.
Hypothesis eqb_eq : forall a b, eqb a b = true <-> a = b.

Lemma lt_asym a b : lt a b = true -> lt b a = false.
Proof.
  intros Hab. destruct (lt b a) eqn:Hba; [|reflexivity].
  rewrite <- (lt_irrefl a). symmetry. eapply lt_trans; eassumption.
Qed.

Lemma key_le_trans (x y z : K * A) : key_le lt x y -> key_le lt y z -> key_le lt x z.
Proof.
  unfold key_le. intros Hxy Hyz.
  destruct (lt (fst z) (fst x)) eqn:Hzx; [|reflexivity].
  destruct (lt (fst x) (fst y)) eqn:Hlt.
  - rewrite <- Hyz. symmetry. eapply lt_trans; eassumption.
  - rewrite (lt_total _ _ Hlt Hxy) in Hzx. congruence.
Qed.

Lemma insert_perm (x : K * A) l : Permutation (insert lt x l) (x :: l).
Proof.
  induction l as [|y l IH]; simpl; [reflexivity|].
  destruct (lt (fst y) (fst x)); [|reflexivity].
  rewrite IH. apply perm_swap.
Qed.

Lemma stable_sort_perm (l : list (K * A)) : Permutation (stable_sort lt l) l.
Proof.
  induction l as [|x l IH]; simpl; [reflexivity|].
  rewrite insert_perm. now apply perm_skip.
Qed.

Lemma insert_sorted (x : K * A) l :
  StronglySorted (key_le lt) l -> StronglySorted (key_le lt) (insert lt x l).
Proof.
  induction 1 as [|y l Hs IH Hy]; simpl.
  - repeat constructor.
  - destruct (lt (fst y) (fst x)) eqn:E.
    + constructor; [exact IH|].
      assert (Hxl : Forall (key_le lt y) (x :: l))
        by (constructor; [unfold key_le; now apply lt_asym | exact Hy]).
      rewrite Forall_forall in *. intros z Hz. apply Hxl.
      eapply Permutation_in; [apply insert_perm | exact Hz].
    + constructor; [now constructor|].
      constructor; [exact E|].
      eapply Forall_impl; [|exact Hy]. intros z. now apply key_le_trans.
Qed.

Lemma stable_sort_sorted (l : list (K * A)) : StronglySorted (key_le lt) (stable_sort lt l).
Proof.
  induction l as [|x l IH]; simpl; [constructor | now apply insert_sorted].
Qed.

(** Stability: inserting [x] puts it in front of the elements of its key. *)
Lemma insert_with_key k (x : K * A) l :
  filter (with_key eqb k) (insert lt x l) = filter (with_key eqb k) (x :: l).
Proof.
  induction l as [|y l IH]; [reflexivity|].
  cbn [insert]. destruct (lt (fst y) (fst x)) eqn:E; [|reflexivity].
  cbn [filter] in *. rewrite IH.
  destruct (with_key eqb k x) eqn:Ex; [|reflexivity].
  destruct (with_key eqb k y) eqn:Ey; [|reflexivity].
  unfold with_key in Ex, Ey. apply eqb_eq in Ex, Ey.
  rewrite Ex, Ey, lt_irrefl in E. discriminate.
Qed.

(** The elements of one key come out of the sort in the order they went in. *)
Lemma stable_sort_with_key k (l : list (K * A)) :
  filter (with_key eqb k) (stable_sort lt l) = filter (with_key eqb k) l.
Proof.
  induction l as [|x l IH]; [reflexivity|].
  cbn [stable_sort]. rewrite insert_with_key. cbn [filter]. now rewrite IH.
Qed.

(** With pairwise distinct keys a list has one sorted arrangement. *)
Lemma sorted_unique (l1 : list (K * A)) : forall l2,
  Permutation l1 l2 ->
  StronglySorted (key_le lt) l1 -> StronglySorted (key_le lt) l2 ->
  NoDup (map fst l1) ->
  l1 = l2.
Proof.
  induction l1 as [|x l1 IH]; intros l2 Hp H1 H2 Hnd.
  - apply Permutation_nil in Hp. now subst.
  - destruct l2 as [|y l2]; [symmetry in Hp; now apply Permutation_nil in Hp|].
    inversion H1 as [|? ? H1' Hx]; subst.
    inversion H2 as [|? ? H2' Hy]; subst.
    inversion Hnd as [|? ? Hnx Hnd']; subst.
    assert (Exy : x = y).
    { assert (Hin : In x (y :: l2)) by (eapply Permutation_in; [exact Hp | now left]).
      destruct Hin as [Hin|Hin]; [now subst|].
      assert (Hin' : In y (x :: l1))
        by (eapply Permutation_in; [symmetry; exact Hp | now left]).
      destruct Hin' as [Hin'|Hin']; [exact Hin'|].
      rewrite Forall_forall in Hx, Hy.
      pose proof (Hx _ Hin') as Hxy. pose proof (Hy _ Hin) as Hyx.
      unfold key_le in Hxy, Hyx.
      exfalso. apply Hnx. rewrite (lt_total _ _ Hyx Hxy).
      now apply in_map. }
    subst y. f_equal. apply IH; trivial.
    now apply Permutation_cons_inv in Hp.
Qed.

(** Hence the sort does not depend on the order of its input. *)
Lemma stable_sort_rev (l : list (K * A)) :
  NoDup (map fst l) -> stable_sort lt (List.rev l) = stable_sort lt l.
Proof.
  intros Hnd. apply sorted_unique; try apply stable_sort_sorted.
  - rewrite !stable_sort_perm. symmetry. apply Permutation_rev.
  - eapply Permutation_NoDup; [|apply NoDup_rev; exact Hnd].
    rewrite <- map_rev. symmetry. apply Permutation_map, stable_sort_perm.
Qed.
End StableSortFacts.

(** ** The order on sort keys *)

Lemma string_compare_refl s : String.compare s s = Eq.
Proof.
  induction s as [|a s IH]; simpl; [reflexivity|].
  unfold Ascii.compare. now rewrite N.compare_refl.
Qed.

Lemma string_compare_lt_trans a : forall b c,
  String.compare a b = Lt -> String.compare b c = Lt -> String.compare a c = Lt.
Proof.
  induction a as [|x a IH]; intros [|y b] [|z c]; simpl; try easy.
  destruct (Ascii.compare x y) eqn:Exy; try discriminate.
  - apply Ascii.compare_eq_iff in Exy. subst y.
    destruct (Ascii.compare x z); try easy. apply IH.
  - intros _. destruct (Ascii.compare y z) eqn:Eyz; try discriminate.
    + apply Ascii.compare_eq_iff in Eyz. subst z. now rewrite Exy.
    + intros _. unfold Ascii.compare in *.
      rewrite N.compare_lt_iff in Exy, Eyz.
      assert (H : (N_of_ascii x ?= N_of_ascii z)%N = Lt)
        by (apply N.compare_lt_iff; lia).
      now rewrite H.
Qed.

Lemma key_lt_irrefl a : key_lt a a = false.
Proof.
  destruct a as [n|s]; simpl.
  - apply Z.ltb_irrefl.
  - unfold String.ltb. now rewrite string_compare_refl.
Qed.

Lemma key_lt_trans a b c :
  key_lt a b = true -> key_lt b c = true -> key_lt a c = true.
Proof.
  destruct a as [x|x], b as [y|y], c as [z|z]; simpl; try easy.
  - rewrite !Z.ltb_lt. lia.
  - unfold String.ltb.
    destruct (String.compare x y) eqn:Exy; try discriminate.
    destruct (String.compare y z) eqn:Eyz; try discriminate.
    now rewrite (string_compare_lt_trans _ _ _ Exy Eyz).
Qed.

Lemma key_lt_total a b : key_lt a b = false -> key_lt b a = false -> a = b.
Proof.
  destruct a as [x|x], b as [y|y]; simpl; try easy.
  - rewrite !Z.ltb_ge. intros. f_equal. lia.
  - unfold String.ltb. rewrite (String.compare_antisym y x).
    destruct (String.compare x y) eqn:E; simpl; try discriminate.
    intros _ _. f_equal. now apply String.compare_eq_iff.
Qed.

Lemma skey_eqb_eq a b : skey_eqb a b = true <-> a = b.
Proof.
  destruct a as [x|x], b as [y|y]; simpl; try (split; discriminate).
  - rewrite Z.eqb_eq. split; congruence.
  - rewrite String.eqb_eq. split; congruence.
Qed.

(** ** list.sort *)

Section ListSortFacts.
Context {A : Type}.
Variable key : A -> except skey.

Lemma map_keys_combine l : forall ks,
  map_keys key l = Return ks ->
  decorated key (combine ks l)
  /\ map fst (combine ks l) = ks /\ map snd (combine ks l) = l.
Proof.
  unfold decorated.
  induction l as [|x l IH]; intros ks; simpl.
  - intros [= <-]. repeat split. constructor.
  - destruct (key x) as [k|e] eqn:Ek; [|discriminate].
    destruct (map_keys key l) as [ks'|e]; [|discriminate].
    intros [= <-]. destruct (IH ks' eq_refl) as (H1 & H2 & H3).
    simpl. repeat split; try congruence. now constructor.
Qed.

Lemma map_keys_total l :
  Forall (fun x => exists k, key x = Return k) l ->
  exists ks, map_keys key l = Return ks.
Proof.
  induction 1 as [|x l [k Hk] _ [ks IH]]; simpl.
  - now exists [].
  - rewrite Hk, IH. now eexists.
Qed.

Lemma map_keys_raise l e :
  map_keys key l = Raise e -> exists x, In x l /\ key x = Raise e.
Proof.
  induction l as [|x l IH]; simpl; [discriminate|].
  destruct (key x) as [k|e'] eqn:Ek.
  - destruct (map_keys key l) as [ks|e'']; [discriminate|].
    intros [= <-]. destruct (IH eq_refl) as (y & Hy & E). exists y. tauto.
  - intros [= <-]. exists x. tauto.
Qed.

Lemma filter_decorated k kv :
  decorated key kv ->
  filter (key_is key k) (map snd kv) = map snd (filter (with_key skey_eqb k) kv).
Proof.
  induction 1 as [|p kv Hp _ IH]; [reflexivity|].
  simpl. unfold key_is at 1, with_key at 1. rewrite Hp, IH.
  now destruct (skey_eqb (fst p) k).
Qed.

Lemma list_sort_eq reverse l ks :
  map_keys key l = Return ks -> one_kind ks = true ->
  list_sort key reverse l = Return (sorted_by ks reverse l).
Proof. intros Hk H1. unfold list_sort. now rewrite Hk, H1. Qed.

(** [list.sort] permutes the list. *)
Lemma sorted_by_perm ks reverse l :
  map_keys key l = Return ks -> Permutation (sorted_by ks reverse l) l.
Proof.
  intros Hk. destruct (map_keys_combine l ks Hk) as (_ & _ & Hsnd).
  unfold sorted_by. transitivity (map snd (combine ks l)); [|now rewrite Hsnd].
  apply Permutation_map. destruct reverse.
  - rewrite <- Permutation_rev, stable_sort_perm. symmetry. apply Permutation_rev.
  - apply stable_sort_perm.
Qed.

(** [list.sort] is stable, whatever the direction: the elements of one
    key keep their order. *)
Lemma sorted_by_stable ks reverse l k :
  map_keys key l = Return ks ->
  filter (key_is key k) (sorted_by ks reverse l) = filter (key_is key k) l.
Proof.
  intros Hk. destruct (map_keys_combine l ks Hk) as (Hdec & _ & Hsnd).
  transitivity (filter (key_is key k) (map snd (combine ks l))); [|now rewrite Hsnd].
  rewrite (filter_decorated k _ Hdec).
  unfold sorted_by. rewrite filter_decorated.
  - f_equal. destruct reverse.
    + rewrite filter_rev,
        (stable_sort_with_key key_lt skey_eqb key_lt_irrefl skey_eqb_eq),
        filter_rev.
      apply rev_involutive.
    + apply (stable_sort_with_key key_lt skey_eqb key_lt_irrefl skey_eqb_eq).
  - unfold decorated in *. rewrite Forall_forall in *. intros p Hp. apply Hdec.
    destruct reverse.
    + apply in_rev in Hp.
      apply (Permutation_in _ (stable_sort_perm key_lt _)) in Hp.
      now apply in_rev.
    + now apply (Permutation_in _ (stable_sort_perm key_lt _)) in Hp.
Qed.

(** With pairwise distinct keys the descending sort is the reverse of the
    ascending one. *)
Lemma sorted_by_reverse ks l :
  map_keys key l = Return ks -> NoDup ks ->
  sorted_by ks true l = List.rev (sorted_by ks false l).
Proof.
  intros Hk Hnd. destruct (map_keys_combine l ks Hk) as (_ & Hfst & _).
  unfold sorted_by. rewrite map_rev. do 2 f_equal.
  apply (stable_sort_rev key_lt key_lt_irrefl key_lt_trans key_lt_total).
  now rewrite Hfst.
Qed.

(** Ascending, the keys of the result never decrease. *)
Lemma sorted_by_sorted ks l :
  map_keys key l = Return ks ->
  exists ks', map_keys key (sorted_by ks false l) = Return ks'
              /\ StronglySorted (fun a b => key_lt b a = false) ks'.
Proof.
  intros Hk. destruct (map_keys_combine l ks Hk) as (Hdec & _ & _).
  unfold sorted_by.
  assert (Hdec' : decorated key (stable_sort key_lt (combine ks l))).
  { unfold decorated in *. rewrite Forall_forall in *. intros p Hp. apply Hdec.
    now apply (Permutation_in _ (stable_sort_perm key_lt _)) in Hp. }
  pose proof (stable_sort_sorted key_lt key_lt_irrefl key_lt_trans key_lt_total
                (combine ks l)) as Hs.
  revert Hdec' Hs. generalize (stable_sort key_lt (combine ks l)).
  intros kv Hdec' Hs. exists (map fst kv). split.
  - clear Hs. induction Hdec' as [|p kv Hp _ IH]; [reflexivity|].
    simpl. now rewrite Hp, IH.
  - clear Hdec'. induction Hs as [|p kv _ IH Hp]; simpl; constructor; trivial.
    rewrite Forall_forall in *. intros k Hin.
    apply in_map_iff in Hin. destruct Hin as (q & <- & Hq). now apply Hp.
Qed.
End ListSortFacts.

(** ** list_books: validation, search and sort *)

Lemma mem_valid_fields sort_by :
  mem sort_by valid_fields = true
  <-> sort_by = "id" \/ sort_by = "title" \/ sort_by = "author".
Proof.
  unfold mem, valid_fields. simpl. rewrite !orb_true_iff, !String.eqb_eq.
  intuition congruence.
Qed.

Lemma provided_valid sort_by :
  mem sort_by valid_fields = true -> provided (Some sort_by) = Some sort_by.
Proof.
  intros H. apply mem_valid_fields in H. destruct H as [->|[->| ->]]; reflexivity.
Qed.

Lemma list_books_valid search sort_by ascending self :
  mem sort_by valid_fields = true ->
  list_books search (Some sort_by) ascending self
  = (list_sort (sort_key sort_by) (negb ascending)
       (search_books search (books self)), self).
Proof.
  intros H. rewrite list_books_eq, provided_valid, H; trivial.
Qed.

(** A supplied, non-empty sort field outside the set is rejected, with the
    field and the set in the message. *)
Lemma list_books_invalid search sort_by ascending self :
  sort_by <> "" -> mem sort_by valid_fields = false ->
  list_books search (Some sort_by) ascending self
  = (Raise (ValueError ("Invalid sort field: " ++ sort_by
                        ++ ". Must be one of {'id', 'title', 'author'}")), self).
Proof.
  intros Hne H. rewrite list_books_eq.
  assert (Hp : provided (Some sort_by) = Some sort_by)
    by (destruct sort_by; [congruence | reflexivity]).
  now rewrite Hp, H.
Qed.

Lemma search_books_incl search l book :
  In book (search_books search l) -> In book l.
Proof.
  unfold search_books. destruct (provided search); trivial.
  intros H. now apply filter_In in H.
Qed.

Lemma sort_key_total sort_by book :
  mem sort_by valid_fields = true ->
  (sort_by = "id" -> exists n, parse_int (id book) = Some n) ->
  exists k, sort_key sort_by book = Return k.
Proof.
  intros H Hid. apply mem_valid_fields in H.
  destruct H as [->|[->| ->]]; unfold sort_key, int; simpl; try now eexists.
  destruct (Hid eq_refl) as [n ->]. now eexists.
Qed.

(** The keys of one call are of one kind. *)
Lemma sort_key_kind sort_by book k :
  sort_key sort_by book = Return k ->
  same_kind k (if (sort_by =? "id")%string then KInt 0 else KStr "") = true.
Proof.
  unfold sort_key. destruct (getitem book sort_by); [|discriminate].
  destruct (sort_by =? "id")%string.
  - destruct (int a); [|discriminate]. now intros [= <-].
  - now intros [= <-].
Qed.

Lemma map_keys_one_kind sort_by l ks :
  map_keys (sort_key sort_by) l = Return ks -> one_kind ks = true.
Proof.
  intros Hk.
  assert (H : Forall (fun k => same_kind k
                (if (sort_by =? "id")%string then KInt 0 else KStr "") = true) ks).
  { revert ks Hk. induction l as [|b l IH]; intros ks; simpl.
    - intros [= <-]. constructor.
    - destruct (sort_key sort_by b) as [k|e] eqn:Ek; [|discriminate].
      destruct (map_keys (sort_key sort_by) l) as [ks'|e]; [|discriminate].
      intros [= <-]. constructor; [now apply sort_key_kind in Ek | now apply IH]. }
  destruct H as [|k ks Hk0 Hks]; [reflexivity|].
  simpl. apply forallb_forall. rewrite Forall_forall in Hks.
  intros k' Hk'. apply Hks in Hk'.
  destruct (sort_by =? "id")%string, k, k'; simpl in *; congruence.
Qed.

Lemma list_books_sorted_by search sort_by ascending self ks :
  mem sort_by valid_fields = true ->
  map_keys (sort_key sort_by) (search_books search (books self)) = Return ks ->
  list_books search (Some sort_by) ascending self
  = (Return (sorted_by ks (negb ascending) (search_books search (books self))), self).
Proof.
  intros Hv Hk. rewrite list_books_valid by exact Hv.
  rewrite (list_sort_eq _ _ _ ks Hk); trivial.
  now apply map_keys_one_kind in Hk.
Qed.

Lemma ids_numeric_keys search sort_by self :
  mem sort_by valid_fields = true ->
  (sort_by = "id" -> ids_numeric (books self)) ->
  exists ks, map_keys (sort_key sort_by) (search_books search (books self)) = Return ks.
Proof.
  intros Hv Hid. apply map_keys_total. apply Forall_forall. intros b Hb.
  apply sort_key_total; trivial. intros E.
  apply search_books_incl in Hb. specialize (Hid E).
  unfold ids_numeric in Hid. rewrite Forall_forall in Hid. now apply Hid.
Qed.

(** In a reachable state every id reads as a number. *)
Lemma reachable_ids_numeric log self : reachable log self -> ids_numeric (books self).
Proof.
  intros H. apply reachable_inv in H. destruct H as (_ & _ & H3 & H4 & _).
  apply Forall_forall. intros b Hb. apply H4, H3 in Hb.
  destruct Hb as (n & -> & _). exists n. apply parse_int_str.
Qed.

(** C3. For every catalog state and every valid sort field (the ids being
    numbers when the field is the id, as in every reachable state),
    [list_books] returns a rearrangement of the selected records in which,
    for each sort key, the records of that key stand in their pre-sort order,
    with [ascending] true and with [ascending] false alike. *)
Theorem list_books_sort_stable self search sort_by ascending :
  mem sort_by valid_fields = true ->
  (sort_by = "id" -> ids_numeric (books self)) ->
  exists l,
    list_books search (Some sort_by) ascending self = (Return l, self)
    /\ Permutation l (search_books search (books self))
    /\ forall k, filter (has_key sort_by k) l
                 = filter (has_key sort_by k) (search_books search (books self)).
Proof.
  intros Hv Hid. destruct (ids_numeric_keys search sort_by self Hv Hid) as [ks Hk].
  exists (sorted_by ks (negb ascending) (search_books search (books self))).
  split; [now apply list_books_sorted_by|]. split.
  - now apply (sorted_by_perm (sort_key sort_by)).
  - intros k. now apply (sorted_by_stable (sort_key sort_by)).
Qed.

Lemma list_books_sort_stable_witness :
  mem "title" valid_fields = true
  /\ fst (list_books None (Some "title") true same_title)
     = Return [mkBook "1" "Same Title" "Author A"; mkBook "2" "Same Title" "Author B"]
  /\ fst (list_books None (Some "title") false same_title)
     = Return [mkBook "1" "Same Title" "Author A"; mkBook "2" "Same Title" "Author B"]
  /\ (exists l, fst (list_books None (Some "title") false same_title) = Return l
       /\ filter (has_key "title" (KStr "same title")) l = books same_title)
  /\ ids_numeric (books (snd (run id_session)))
  /\ (exists l, fst (list_books None (Some "id") false (snd (run id_session))) = Return l
       /\ Permutation l (books (snd (run id_session)))).
Proof.
  split; [reflexivity|]. split; [reflexivity|]. split; [reflexivity|].
  pose proof (reachable_ids_numeric _ _ (run_reachable id_session)) as Hnum.
  split; [|split; [exact Hnum|]].
  - destruct (list_books_sort_stable same_title None "title" false eq_refl)
      as (l & E & _ & Hst); [discriminate|].
    exists l. split; [now rewrite E|]. rewrite Hst. reflexivity.
  - destruct (list_books_sort_stable (snd (run id_session)) None "id" false eq_refl
                (fun _ => Hnum)) as (l & E & Hp & _).
    exists l. split; [now rewrite E | exact Hp].
Defined.

(** C2, as the code has it. For every catalog state, every search term and
    every valid sort field, when the sort keys of the selected records are
    pairwise distinct, [list_books] with [ascending] false returns exactly the
    reverse of what it returns with [ascending] true. *)
Theorem list_books_descending_reverse self search sort_by ks :
  mem sort_by valid_fields = true ->
  map_keys (sort_key sort_by) (search_books search (books self)) = Return ks ->
  NoDup ks ->
  exists l,
    list_books search (Some sort_by) true self = (Return l, self)
    /\ list_books search (Some sort_by) false self = (Return (List.rev l), self).
Proof.
  intros Hv Hk Hnd.
  exists (sorted_by ks false (search_books search (books self))).
  split; [now apply list_books_sorted_by|].
  rewrite (list_books_sorted_by _ _ _ _ ks Hv Hk). simpl.
  now rewrite (sorted_by_reverse (sort_key sort_by)).
Qed.

Lemma list_books_descending_reverse_witness :
  mem "title" valid_fields = true
  /\ map_keys (sort_key "title") (search_books (Some "book") (books (snd (run sort_session))))
     = Return [KStr "c book"; KStr "a book"; KStr "b book"]
  /\ NoDup [KStr "c book"; KStr "a book"; KStr "b book"]
  /\ exists l,
       fst (list_books (Some "book") (Some "title") true (snd (run sort_session))) = Return l
       /\ map title l = ["A Book"; "B Book"; "C Book"]
       /\ fst (list_books (Some "book") (Some "title") false (snd (run sort_session)))
          = Return (List.rev l).
Proof.
  assert (Hnd : NoDup [KStr "c book"; KStr "a book"; KStr "b book"]).
  { repeat constructor; simpl; intuition discriminate. }
  split; [reflexivity|]. split; [reflexivity|]. split; [exact Hnd|].
  destruct (list_books_descending_reverse (snd (run sort_session)) (Some "book")
              "title" _ eq_refl eq_refl Hnd) as (l & Ha & Hd).
  exists l. rewrite Hd. split; [now rewrite Ha|]. split; [|reflexivity].
  assert (E : fst (list_books (Some "book") (Some "title") true (snd (run sort_session)))
              = Return [mkBook "2" "A Book" "Author A";
                        mkBook "3" "B Book" "Author B";
                        mkBook "1" "C Book" "Author C"])
    by reflexivity.
  rewrite Ha in E. injection E as ->. reflexivity.
Defined.

(** C2, as stated, fails: after the two calls of the stability test the two
    records have the same title, and sorting by title returns them in the
    order of creation for both values of [ascending]; the descending result
    is not the reverse of the ascending one. *)
Lemma list_books_descending_not_reverse :
  ~ (forall log self search sort_by l,
       reachable log self -> mem sort_by valid_fields = true ->
       fst (list_books search (Some sort_by) true self) = Return l ->
       fst (list_books search (Some sort_by) false self) = Return (List.rev l)).
Proof.
  intros H.
  specialize (H _ _ None "title" _
                (run_reachable [CreateBook "Same Title" "Author A";
                                CreateBook "Same Title" "Author B"])
                eq_refl eq_refl).
  discriminate H.
Qed.

(** C1, at the input where the code departs from it.  The sort field [""]
    is supplied and is not one of "id", "title", "author", yet [list_books]
    raises nothing: for both values of [ascending] it returns the records
    unsorted, as it does when no sort field is given. *)
Theorem list_books_empty_sort_by_not_rejected ascending :
  mem "" valid_fields = false
  /\ list_books None (Some "") ascending one_book = (Return (books one_book), one_book)
  /\ list_books None (Some "") ascending one_book = list_books None None ascending one_book.
Proof. destruct ascending; repeat split. Qed.

Lemma sort_key_raise sort_by book e :
  sort_key sort_by book = Raise e -> e = KeyError sort_by \/ e = int_error.
Proof.
  unfold sort_key, getitem, int.
  destruct (sort_by =? "id")%string eqn:E1.
  - destruct (parse_int (id book)); [discriminate|]. intros [= <-]. now right.
  - destruct (sort_by =? "title")%string; [discriminate|].
    destruct (sort_by =? "author")%string; [discriminate|].
    intros [= <-]. now left.
Qed.

(** The exceptions of the sort are not the validation error. *)
Lemma list_sort_raise sort_by reverse l e sb :
  list_sort (sort_key sort_by) reverse l = Raise e -> e <> sort_error sb.
Proof.
  unfold list_sort.
  destruct (map_keys (sort_key sort_by) l) as [ks|e'] eqn:Ek.
  - destruct (one_kind ks); simpl; [discriminate|]. intros [= <-]. discriminate.
  - intros [= <-]. apply map_keys_raise in Ek. destruct Ek as (b & _ & Hb).
    apply sort_key_raise in Hb. destruct Hb as [-> | ->]; discriminate.
Qed.

(** C6. For every catalog state and every combination of [search],
    [sort_by] and [ascending], the refactored [list_books], which delegates
    the sort to [_sort_books], returns or raises exactly what the original
    one does and leaves the same state; both raise the validation error
    exactly when a non-empty sort field outside the set is supplied. *)
Theorem refactor_list_books_equiv self search sort_by ascending :
  Refactor.list_books search sort_by ascending self
  = list_books search sort_by ascending self
  /\ ((exists sb, fst (Refactor.list_books search sort_by ascending self)
                  = Raise (sort_error sb))
      <-> (exists sb, provided sort_by = Some sb /\ mem sb valid_fields = false))
  /\ ((exists sb, fst (list_books search sort_by ascending self)
                  = Raise (sort_error sb))
      <-> (exists sb, provided sort_by = Some sb /\ mem sb valid_fields = false)).
Proof.
  assert (E : Refactor.list_books search sort_by ascending self
              = list_books search sort_by ascending self).
  { unfold Refactor.list_books, Refactor._sort_books, list_books, bind, get_books.
    destruct (provided sort_by) as [sb|]; reflexivity. }
  assert (H : (exists sb, fst (list_books search sort_by ascending self)
                          = Raise (sort_error sb))
              <-> (exists sb, provided sort_by = Some sb /\ mem sb valid_fields = false)).
  { rewrite list_books_eq. cbn [fst]. split.
    - intros [sb0 H]. destruct (provided sort_by) as [sb|]; [|discriminate].
      exists sb. split; [reflexivity|].
      destruct (mem sb valid_fields); [|reflexivity]. cbn [negb] in H.
      now apply list_sort_raise with (sb := sb0) in H.
    - intros (sb & -> & ->). now exists sb. }
  rewrite E. repeat split; apply H.
Qed.

(** C7. For every catalog state, [list_books] with no sort field and with
    [search] absent or empty returns all the records, and with a non-empty
    [search], made of whitespace or not, it returns, in the order of the
    catalog, exactly the records whose lowercased title or lowercased author
    contains the lowercased search term as a substring. *)
Theorem list_books_search self search ascending :
  (search = None \/ search = Some "" ->
   list_books search None ascending self = (Return (books self), self))
  /\ (forall s, search = Some s -> s <> "" ->
      list_books search None ascending self
      = (Return (filter (matches (lower s)) (books self)), self)
      /\ forall book,
           matches (lower s) book = true
           <-> (Substring (lower s) (lower (title book))
                \/ Substring (lower s) (lower (author book)))).
Proof.
  split.
  - intros [-> | ->]; reflexivity.
  - intros s -> Hs. split.
    + rewrite list_books_eq. unfold search_books. simpl.
      destruct s; [congruence | reflexivity].
    + intros book. unfold matches. now rewrite orb_true_iff, !str_in_spec.
Qed.

Lemma list_books_search_witness :
  list_books (Some "") None true (snd (run sort_session))
  = (Return (books (snd (run sort_session))), snd (run sort_session))
  /\ "aUTHOR b" <> ""
  /\ fst (list_books (Some "aUTHOR b") None true (snd (run sort_session)))
     = Return [mkBook "3" "B Book" "Author B"]
  /\ fst (list_books (Some "   ") None true (snd (run sort_session))) = Return []
  /\ Substring (lower "aUTHOR b") (lower "Author B").
Proof.
  destruct (list_books_search (snd (run sort_session)) (Some "") true) as [H1 _].
  destruct (list_books_search (snd (run sort_session)) (Some "aUTHOR b") true)
    as [_ H2].
  destruct (H2 "aUTHOR b" eq_refl) as [E Hm]; [discriminate|].
  split; [apply H1; now right|]. split; [discriminate|].
  split; [now rewrite E|]. split; [reflexivity|].
  destruct (proj1 (Hm (mkBook "3" "B Book" "Author B")) eq_refl) as [H|H].
  - exfalso. apply str_in_spec in H. discriminate H.
  - exact H.
Defined.

(** * Further properties *)

(** ** Trimming and lowercasing *)

Lemma rstrip_nonspace sp c s :
  sp c = false -> rstrip_with sp (String c s) = String c (rstrip_with sp s).
Proof. intros H. simpl. rewrite H. now destruct (rstrip_with sp s). Qed.

Lemma rstrip_cons sp c s :
  rstrip_with sp (String c s)
  = match rstrip_with sp s with
    | EmptyString => if sp c then EmptyString else String c EmptyString
    | r => String c r
    end.
Proof. reflexivity. Qed.

Lemma rstrip_idem sp s : rstrip_with sp (rstrip_with sp s) = rstrip_with sp s.
Proof.
  induction s as [|c s IH]; [reflexivity|].
  rewrite rstrip_cons. destruct (rstrip_with sp s) as [|d r] eqn:E.
  - destruct (sp c) eqn:Ec; [reflexivity|]. simpl. now rewrite Ec.
  - rewrite rstrip_cons, IH. reflexivity.
Qed.

Lemma lstrip_rstrip_lstrip sp s :
  lstrip_with sp (rstrip_with sp (lstrip_with sp s))
  = rstrip_with sp (lstrip_with sp s).
Proof.
  induction s as [|c s IH]; [reflexivity|].
  cbn [lstrip_with]. destruct (sp c) eqn:Ec; [exact IH|].
  rewrite rstrip_nonspace by exact Ec. simpl. now rewrite Ec.
Qed.

(** Trimming twice is trimming once. *)
Lemma strip_idem s : strip (strip s) = strip s.
Proof.
  unfold strip, strip_with. now rewrite lstrip_rstrip_lstrip, rstrip_idem.
Qed.

Lemma lower_char_idem c : lower_char (lower_char c) = lower_char c.
Proof. destruct c as [[] [] [] [] [] [] [] []]; reflexivity. Qed.

Lemma lower_idem s : lower (lower s) = lower s.
Proof.
  induction s as [|c s IH]; [reflexivity|]. simpl. now rewrite lower_char_idem, IH.
Qed.


Lemma lower_empty s : lower s = "" <-> s = "".
Proof. destruct s; simpl; split; congruence. Qed.




(** ** get_book *)

Lemma get_loop_absent book_id l :
  get_loop book_id l = None <-> ~ In book_id (map id l).
Proof.
  induction l as [|b l IH]; simpl; [tauto|].
  destruct (String.eqb_spec (id b) book_id) as [E|E].
  - split; [discriminate | intros H; exfalso; auto].
  - rewrite IH. tauto.
Qed.

Lemma get_loop_found book_id l book :
  get_loop book_id l = Some book ->
  exists l1 l2, l = (l1 ++ book :: l2)%list /\ id book = book_id
                /\ ~ In book_id (map id l1).
Proof.
  induction l as [|b l IH]; simpl; [discriminate|].
  destruct (String.eqb_spec (id b) book_id) as [E|E].
  - intros [= <-]. exists [], l. simpl. tauto.
  - intros H. destruct (IH H) as (l1 & l2 & -> & Hb & Hn).
    exists (b :: l1), l2. simpl. repeat split; trivial. tauto.
Qed.

Lemma get_loop_app book_id l1 l2 :
  get_loop book_id (l1 ++ l2)
  = match get_loop book_id l1 with
    | Some book => Some book
    | None => get_loop book_id l2
    end.
Proof.
  induction l1 as [|b l1 IH]; [reflexivity|]. simpl.
  now destruct (id b =? book_id)%string.
Qed.

Lemma get_book_eq book_id self :
  get_book book_id self = (Return (get_loop book_id (books self)), self).
Proof. reflexivity. Qed.

(** X1. [get_book] never raises and never changes the catalog; it returns
    [None] exactly when no record carries the id, and otherwise the first
    record of the collection that carries it. *)
Theorem get_book_spec self book_id :
  snd (get_book book_id self) = self
  /\ (forall e, fst (get_book book_id self) <> Raise e)
  /\ (fst (get_book book_id self) = Return None
      <-> ~ In book_id (map id (books self)))
  /\ (forall book, fst (get_book book_id self) = Return (Some book) ->
        exists l1 l2, books self = (l1 ++ book :: l2)%list
                      /\ id book = book_id /\ ~ In book_id (map id l1))
  /\ (In book_id (map id (books self)) ->
        exists book, fst (get_book book_id self) = Return (Some book)).
Proof.
  rewrite get_book_eq. cbn [fst snd]. repeat split; try discriminate.
  - intros [= H]. now apply get_loop_absent.
  - intros H. apply get_loop_absent in H. now rewrite H.
  - intros book [= H]. now apply get_loop_found.
  - intros Hin. destruct (get_loop book_id (books self)) as [b|] eqn:E.
    + now exists b.
    + apply get_loop_absent in E. contradiction.
Qed.

Lemma get_book_spec_witness :
  fst (get_book "3" (snd (run id_session))) = Return (Some (mkBook "3" "Book 3" "Author 3"))
  /\ exists l1 l2,
       books (snd (run id_session)) = (l1 ++ mkBook "3" "Book 3" "Author 3" :: l2)%list
       /\ ~ In "3" (map id l1).
Proof.
  destruct (get_book_spec (snd (run id_session)) "3") as (_ & _ & _ & H & _).
  split; [reflexivity|].
  destruct (H (mkBook "3" "Book 3" "Author 3") eq_refl) as (l1 & l2 & E & _ & Hn).
  now exists l1, l2.
Defined.

(** X2. Round trip: after a successful [create_book] in a catalog where no
    record carries the string of the counter (as in every reachable state),
    [get_book] with the returned id returns the record just created. *)
Theorem get_book_after_create self t a :
  strip t <> "" -> strip a <> "" ->
  ~ In (str (_next_id self)) (map id (books self)) ->
  exists book self',
    create_book t a self = (Return book, self')
    /\ get_book (id book) self' = (Return (Some book), self').
Proof.
  intros Ht Ha Hfresh. exists (new_book self t a). eexists.
  split; [now apply create_book_valid|].
  rewrite get_book_eq. cbn [books id new_book].
  apply get_loop_absent in Hfresh. rewrite get_loop_app, Hfresh.
  simpl. now rewrite String.eqb_refl.
Qed.

Lemma get_book_after_create_witness :
  strip " Book 4" <> "" /\ strip "Author 4 " <> ""
  /\ ~ In (str (_next_id (snd (run id_session)))) (map id (books (snd (run id_session))))
  /\ exists book self',
       create_book " Book 4" "Author 4 " (snd (run id_session)) = (Return book, self')
       /\ get_book (id book) self' = (Return (Some book), self').
Proof.
  assert (Hfresh : ~ In (str (_next_id (snd (run id_session))))
                     (map id (books (snd (run id_session))))).
  { destruct (reachable_inv _ _ (run_reachable id_session)) as (_ & _ & H3 & H4 & _).
    intros Hin. apply in_map_iff in Hin. destruct Hin as (b & E & Hb).
    apply H4 in Hb. rewrite E in Hb. apply H3 in Hb.
    destruct Hb as (n & En & Hn). apply str_inj in En. lia. }
  split; [discriminate|]. split; [discriminate|]. split; [exact Hfresh|].
  apply get_book_after_create; [discriminate | discriminate | exact Hfresh].
Defined.

(** X3. When the ids of the catalog are pairwise distinct, [get_book] finds
    nothing under an id after [delete_book] was called with that id. *)
Theorem get_book_after_delete self book_id :
  NoDup (map id (books self)) ->
  fst (get_book book_id (snd (delete_book book_id self))) = Return None.
Proof.
  intros Hnd. rewrite get_book_eq. cbn [fst]. f_equal. apply get_loop_absent.
  destruct (in_ids_dec book_id (books self)) as [Hin|Hout].
  - destruct (delete_book_present self book_id Hin) as (l1 & b & l2 & Hl & Hb & Hn & E).
    rewrite E. cbn [snd books].
    rewrite Hl, map_app in Hnd. simpl in Hnd. apply NoDup_remove_2 in Hnd.
    rewrite Hb in Hnd. now rewrite map_app.
  - now rewrite delete_book_absent.
Qed.

Lemma get_book_after_delete_witness :
  NoDup (map id (books (snd (run sort_session))))
  /\ fst (get_book "2" (snd (run sort_session)))
     = Return (Some (mkBook "2" "A Book" "Author A"))
  /\ fst (get_book "2" (snd (delete_book "2" (snd (run sort_session))))) = Return None.
Proof.
  destruct (reachable_inv _ _ (run_reachable sort_session)) as (_ & _ & _ & _ & Hnd & _).
  split; [exact Hnd|]. split; [reflexivity|].
  now apply get_book_after_delete.
Defined.

(** X4. [delete_book] with one id does not change what [get_book] returns
    for any other id. *)
Theorem delete_book_keeps_other_lookups self book_id other :
  other <> book_id ->
  fst (get_book other (snd (delete_book book_id self))) = fst (get_book other self).
Proof.
  intros Hne. rewrite !get_book_eq. cbn [fst]. f_equal.
  destruct (in_ids_dec book_id (books self)) as [Hin|Hout].
  - destruct (delete_book_present self book_id Hin) as (l1 & b & l2 & Hl & Hb & Hn & E).
    rewrite E, Hl. cbn [snd books]. rewrite !get_loop_app. simpl.
    destruct (String.eqb_spec (id b) other) as [E'|E']; [congruence | reflexivity].
  - now rewrite delete_book_absent.
Qed.

Lemma delete_book_keeps_other_lookups_witness :
  "3" <> "1"
  /\ fst (get_book "3" (snd (delete_book "1" (snd (run sort_session)))))
     = Return (Some (mkBook "3" "B Book" "Author B")).
Proof.
  split; [discriminate|].
  rewrite (delete_book_keeps_other_lookups (snd (run sort_session)) "1" "3");
    [reflexivity | discriminate].
Defined.

(** X5. [create_book], whether it succeeds or raises, does not change what
    [get_book] returns for an id that is carried by a record or that differs
    from the string of the counter. *)
Theorem create_book_keeps_lookups self t a book_id :
  In book_id (map id (books self)) \/ book_id <> str (_next_id self) ->
  fst (get_book book_id (snd (create_book t a self))) = fst (get_book book_id self).
Proof.
  intros H. rewrite !get_book_eq. cbn [fst]. f_equal.
  destruct (create_book_cases self t a) as [(Ht & Ha & E)|[Hbad E]];
    rewrite E; cbn [snd books]; [|reflexivity].
  rewrite get_loop_app.
  destruct (get_loop book_id (books self)) as [b|] eqn:Eg; [reflexivity|].
  apply get_loop_absent in Eg. destruct H as [H|H]; [contradiction|].
  simpl. destruct (String.eqb_spec (str (_next_id self)) book_id); congruence.
Qed.

Lemma create_book_keeps_lookups_witness :
  In "1" (map id (books one_book))
  /\ fst (get_book "1" (snd (create_book "T" "A" one_book)))
     = Return (Some (mkBook "1" "Test Book" "Test Author"))
  /\ "7" <> str (_next_id one_book)
  /\ fst (get_book "7" (snd (create_book "T" "A" one_book))) = Return None.
Proof.
  assert (H1 : In "1" (map id (books one_book))) by (simpl; tauto).
  assert (H7 : "7" <> str (_next_id one_book)) by discriminate.
  split; [exact H1|]. split.
  - now rewrite (create_book_keeps_lookups one_book "T" "A" "1" (or_introl H1)).
  - split; [exact H7|].
    now rewrite (create_book_keeps_lookups one_book "T" "A" "7" (or_intror H7)).
Defined.

(** ** create_book: trimming *)

(** X6. [create_book] depends on its arguments through their trimmed forms
    only: whitespace around the title or the author changes neither the
    outcome nor the state. *)
Theorem create_book_trims self t a :
  create_book t a self = create_book (strip t) (strip a) self.
Proof. unfold create_book. now rewrite !strip_idem. Qed.

(** ** Sessions: what one call does to the catalog *)

Lemma step_cases c self r self' :
  step c self = (r, self') ->
  (self' = self /\ issued [(c, r)] = [])
  \/ (exists t a,
        c = CreateBook t a /\ strip t <> "" /\ strip a <> ""
        /\ r = Return (VBook (new_book self t a))
        /\ self' = {| books := books self ++ [new_book self t a];
                      _next_id := _next_id self + 1 |})
  \/ (exists l1 book l2,
        c = DeleteBook (id book) /\ r = Return (VBool true)
        /\ books self = (l1 ++ book :: l2)%list
        /\ self' = {| books := l1 ++ l2; _next_id := _next_id self |}).
Proof.
  intros Hstep. destruct c as [t a|i|s sb asc|i].
  - rewrite step_create in Hstep.
    destruct (create_book_cases self t a) as [(Ht & Ha & E)|[Hbad E]];
      rewrite E in Hstep; injection Hstep as <- <-.
    + right. left. now exists t, a.
    + now left.
  - rewrite step_get in Hstep. injection Hstep as <- <-. now left.
  - destruct (step_list s sb asc self) as (r' & E & Hr).
    rewrite E in Hstep. injection Hstep as <- <-. left. split; [reflexivity|].
    simpl. destruct r' as [[]|]; reflexivity.
  - rewrite step_delete in Hstep.
    destruct (in_ids_dec i (books self)) as [Hin|Hout].
    + destruct (delete_book_present self i Hin) as (l1 & b & l2 & Hl & Hb & Hn & E).
      rewrite E in Hstep. injection Hstep as <- <-.
      right. right. exists l1, b, l2. now rewrite Hb.
    + rewrite (delete_book_absent self i Hout) in Hstep. injection Hstep as <- <-.
      now left.
Qed.

(** A property of single records that the records built by [create_book]
    have holds of every record of a reachable catalog. *)
Lemma reachable_Forall (P : Book -> Prop) :
  (forall self t a, strip t <> "" -> strip a <> "" -> P (new_book self t a)) ->
  forall log self, reachable log self -> Forall P (books self).
Proof.
  intros HP log self H. induction H as [|log self c r self' _ IH Hstep].
  - constructor.
  - destruct (step_cases _ _ _ _ Hstep)
      as [[-> _] | [(t & a & _ & Ht & Ha & _ & ->) | (l1 & b & l2 & _ & _ & Hl & ->)]];
      cbn [books]; trivial.
    + apply Forall_app. split; [exact IH|]. constructor; [now apply HP | constructor].
    + rewrite Hl in IH. apply Forall_app in IH. destruct IH as [H1 H2].
      apply Forall_app. split; [exact H1|]. now inversion H2.
Qed.

(** X7. In every reachable state the title and the author of every record
    are non-empty and carry no whitespace at either end. *)
Theorem reachable_records_trimmed log self :
  reachable log self ->
  Forall (fun book => trimmed (title book) /\ trimmed (author book)) (books self).
Proof.
  apply reachable_Forall. intros s t a Ht Ha. unfold trimmed. simpl.
  now rewrite !strip_idem.
Qed.

Lemma reachable_records_trimmed_witness :
  reachable (fst (run [CreateBook "  Dune " (String "009" "Frank Herbert")]))
            (snd (run [CreateBook "  Dune " (String "009" "Frank Herbert")]))
  /\ books (snd (run [CreateBook "  Dune " (String "009" "Frank Herbert")]))
     = [mkBook "1" "Dune" "Frank Herbert"]
  /\ Forall (fun book => trimmed (title book) /\ trimmed (author book))
       (books (snd (run [CreateBook "  Dune " (String "009" "Frank Herbert")]))).
Proof.
  pose proof (run_reachable [CreateBook "  Dune " (String "009" "Frank Herbert")]) as Hr.
  split; [exact Hr|]. split; [reflexivity|].
  exact (reachable_records_trimmed _ _ Hr).
Defined.

Lemma first_ids_S n : first_ids (S n) = (first_ids n ++ [str (Z.of_nat (S n))])%list.
Proof. unfold first_ids. now rewrite seq_S, map_app. Qed.

(** X8. Ids are issued in sequence: in every reachable state the ids issued
    so far are "1", "2", ..., up to the number of successful [create_book]
    calls, in this order, and the counter is that number plus one. *)
Theorem reachable_ids_sequential log self :
  reachable log self ->
  issued log = first_ids (List.length (issued log))
  /\ _next_id self = Z.of_nat (List.length (issued log)) + 1.
Proof.
  induction 1 as [|log self c r self' _ [IH1 IH2] Hstep]; [now split|].
  rewrite issued_app.
  destruct (step_cases _ _ _ _ Hstep)
    as [[-> E] | [(t & a & -> & _ & _ & -> & ->) | (l1 & b & l2 & -> & -> & _ & ->)]].
  - rewrite E, app_nil_r. now split.
  - cbn [issued id new_book _next_id]. rewrite last_length, first_ids_S, <- IH1.
    split; [|lia]. do 2 f_equal. rewrite IH2. f_equal. lia.
  - cbn [issued _next_id]. rewrite app_nil_r. now split.
Qed.

Lemma reachable_ids_sequential_witness :
  reachable (fst (run reuse_session)) (snd (run reuse_session))
  /\ issued (fst (run reuse_session)) = first_ids 3
  /\ first_ids 3 = ["1"; "2"; "3"]
  /\ _next_id (snd (run reuse_session)) = 4.
Proof.
  pose proof (run_reachable reuse_session) as Hr.
  destruct (reachable_ids_sequential _ _ Hr) as [H1 H2].
  split; [exact Hr|]. split; [exact H1|]. split; [reflexivity | exact H2].
Defined.

(** ** Sorted lists *)

Section SortedLists.
Context {T : Type}.
Variable R : T -> T -> Prop.

Lemma StronglySorted_snoc l y :
  StronglySorted R l -> Forall (fun x => R x y) l -> StronglySorted R (l ++ [y]).
Proof.
  induction 1 as [|x l Hs IH Hx]; intros Hy; simpl.
  - repeat constructor.
  - inversion Hy as [|? ? Hxy Hy']; subst.
    constructor; [now apply IH|].
    apply Forall_app. split; [exact Hx | now repeat constructor].
Qed.

Lemma StronglySorted_remove l1 x l2 :
  StronglySorted R (l1 ++ x :: l2) -> StronglySorted R (l1 ++ l2).
Proof.
  induction l1 as [|y l1 IH]; simpl; intros H; inversion H as [|? ? Hs Hy]; subst.
  - exact Hs.
  - constructor; [now apply IH|].
    apply Forall_app in Hy. destruct Hy as [H1 H2].
    apply Forall_app. split; [exact H1 | now inversion H2].
Qed.

Lemma StronglySorted_filter p l :
  StronglySorted R l -> StronglySorted R (filter p l).
Proof.
  induction 1 as [|x l Hs IH Hx]; simpl; [constructor|].
  destruct (p x); [|exact IH]. constructor; [exact IH|].
  rewrite Forall_forall in *. intros y Hy. apply Hx. now apply filter_In in Hy.
Qed.

End SortedLists.

Lemma StronglySorted_rev {T} (R : T -> T -> Prop) l :
  StronglySorted R l -> StronglySorted (fun a b => R b a) (List.rev l).
Proof.
  induction 1 as [|x l Hs IH Hx]; simpl; [constructor|].
  apply StronglySorted_snoc; [exact IH|]. now apply Forall_rev.
Qed.

(** A list that is already in order is left as it is by the stable sort. *)
Lemma stable_sort_sorted_id {K A} (lt : K -> K -> bool) (l : list (K * A)) :
  StronglySorted (key_le lt) l -> stable_sort lt l = l.
Proof.
  induction 1 as [|x l Hs IH Hx]; [reflexivity|].
  cbn [stable_sort]. rewrite IH. destruct l as [|y l]; [reflexivity|].
  inversion Hx as [|? ? Hxy _]; subst. unfold key_le in Hxy.
  cbn [insert]. now rewrite Hxy.
Qed.

(** ** The records of a reachable catalog are in the order of their ids *)

Lemma reachable_ids_increasing log self :
  reachable log self -> StronglySorted id_lt (books self).
Proof.
  induction 1 as [|log self c r self' Hr IH Hstep]; [constructor|].
  destruct (step_cases _ _ _ _ Hstep)
    as [[-> _] | [(t & a & _ & _ & _ & _ & ->) | (l1 & b & l2 & _ & _ & Hl & ->)]];
    cbn [books]; trivial.
  - apply StronglySorted_snoc; [exact IH|].
    destruct (reachable_inv _ _ Hr) as (_ & _ & H3 & H4 & _).
    apply Forall_forall. intros x Hx. apply H4, H3 in Hx.
    destruct Hx as (n & E & Hn). exists n, (_next_id self).
    cbn [id new_book]. rewrite E, !parse_int_str. repeat split. lia.
  - rewrite Hl in IH. now apply StronglySorted_remove in IH.
Qed.

Lemma sort_key_id book n :
  parse_int (id book) = Some n -> sort_key "id" book = Return (KInt n).
Proof. intros H. unfold sort_key, int. simpl. now rewrite H. Qed.

Lemma increasing_keys l :
  ids_numeric l -> StronglySorted id_lt l ->
  exists ks, map_keys (sort_key "id") l = Return ks
             /\ StronglySorted (key_le key_lt) (combine ks l)
             /\ NoDup ks.
Proof.
  intros Hnum Hs. induction Hs as [|x l Hs IH Hx].
  - exists []. repeat split; constructor.
  - inversion Hnum as [|? ? [n Hn] Hnum']; subst.
    destruct (IH Hnum') as (ks & Hk & Hsorted & Hnd).
    destruct (map_keys_combine (sort_key "id") l ks Hk) as (Hdec & Hfst & Hsnd).
    assert (Hlater : forall p, In p (combine ks l) -> exists m, fst p = KInt m /\ n < m).
    { intros p Hp. unfold decorated in Hdec. rewrite Forall_forall in Hdec, Hx.
      pose proof (Hdec p Hp) as Hkey.
      assert (Hin : In (snd p) l) by (rewrite <- Hsnd; now apply in_map).
      destruct (Hx _ Hin) as (n' & m & Hn' & Hm & Hlt).
      rewrite (sort_key_id _ _ Hm) in Hkey. exists m. split; congruence. }
    exists (KInt n :: ks). simpl. rewrite (sort_key_id _ _ Hn), Hk.
    split; [reflexivity|]. split.
    + constructor; [exact Hsorted|]. apply Forall_forall. intros p Hp.
      destruct (Hlater p Hp) as (m & Hm & Hlt). unfold key_le. rewrite Hm. simpl.
      apply Z.ltb_ge. lia.
    + constructor; [|exact Hnd]. rewrite <- Hfst. intros Hin.
      apply in_map_iff in Hin. destruct Hin as (p & Ep & Hp).
      destruct (Hlater p Hp) as (m & Hm & Hlt). rewrite Hm in Ep.
      injection Ep as ->. lia.
Qed.

Lemma search_books_sorted (R : Book -> Book -> Prop) search l :
  StronglySorted R l -> StronglySorted R (search_books search l).
Proof.
  unfold search_books. destruct (provided search); trivial.
  apply StronglySorted_filter.
Qed.

Lemma search_books_numeric search l :
  ids_numeric l -> ids_numeric (search_books search l).
Proof.
  unfold ids_numeric. rewrite !Forall_forall. intros H b Hb.
  apply H. now apply search_books_incl in Hb.
Qed.

(** X9. In every reachable state the records stand in the order of their
    numeric ids: sorting by id in ascending order returns the selected
    records as they are listed without a sort, and in descending order
    returns exactly their reverse. *)
Theorem list_books_by_id_is_insertion_order log self search :
  reachable log self ->
  list_books search (Some "id") true self
  = (Return (search_books search (books self)), self)
  /\ list_books search (Some "id") true self = list_books search None true self
  /\ list_books search (Some "id") false self
     = (Return (List.rev (search_books search (books self))), self).
Proof.
  intros Hr.
  destruct (increasing_keys (search_books search (books self)))
    as (ks & Hk & Hsorted & Hnd).
  { apply search_books_numeric. eapply reachable_ids_numeric; eassumption. }
  { apply search_books_sorted. eapply reachable_ids_increasing; eassumption. }
  destruct (map_keys_combine _ _ _ Hk) as (_ & _ & Hsnd).
  assert (Hasc : sorted_by ks false (search_books search (books self))
                 = search_books search (books self)).
  { unfold sorted_by. now rewrite stable_sort_sorted_id. }
  rewrite !(list_books_sorted_by search "id" _ self ks eq_refl Hk).
  cbn [negb]. rewrite (sorted_by_reverse _ _ _ Hk Hnd), Hasc.
  repeat split.
Qed.

Lemma list_books_by_id_is_insertion_order_witness :
  reachable (fst (run eleven_session)) (snd (run eleven_session))
  /\ list_books None (Some "id") true (snd (run eleven_session))
     = (Return (books (snd (run eleven_session))), snd (run eleven_session))
  /\ list_books None (Some "id") false (snd (run eleven_session))
     = (Return (List.rev (books (snd (run eleven_session)))), snd (run eleven_session)).
Proof.
  pose proof (run_reachable eleven_session) as Hr.
  destruct (list_books_by_id_is_insertion_order _ _ None Hr) as (H1 & _ & H3).
  split; [exact Hr|]. split; [exact H1 | exact H3].
Defined.

(** ** The order of a sorted result *)

Lemma StronglySorted_map {T U} (f : T -> U) (R : U -> U -> Prop) l :
  StronglySorted (fun a b => R (f a) (f b)) l -> StronglySorted R (map f l).
Proof.
  induction 1 as [|x l Hs IH Hx]; simpl; constructor; trivial.
  rewrite Forall_forall in *. intros y Hy.
  apply in_map_iff in Hy. destruct Hy as (z & <- & Hz). now apply Hx.
Qed.

Lemma map_keys_decorated {A} (key : A -> except skey) kv :
  decorated key kv -> map_keys key (map snd kv) = Return (map fst kv).
Proof.
  induction 1 as [|p kv Hp _ IH]; [reflexivity|]. simpl. now rewrite Hp, IH.
Qed.

Lemma decorated_perm {A} (key : A -> except skey) kv kv' :
  Permutation kv kv' -> decorated key kv -> decorated key kv'.
Proof. unfold decorated. intros Hp H. eapply Permutation_Forall; eassumption. Qed.

(** The keys of the list that [list.sort] yields, and their order. *)
Lemma sorted_by_ordered {A} (key : A -> except skey) ks reverse l :
  map_keys key l = Return ks ->
  exists ks', map_keys key (sorted_by ks reverse l) = Return ks'
              /\ StronglySorted (key_order (negb reverse)) ks'.
Proof.
  intros Hk. destruct (map_keys_combine key l ks Hk) as (Hdec & _ & _).
  pose proof (stable_sort_sorted (A := A) key_lt key_lt_irrefl key_lt_trans
                key_lt_total) as Hsorted.
  unfold sorted_by. destruct reverse; cbn [negb key_order].
  - exists (map fst (List.rev (stable_sort key_lt (List.rev (combine ks l))))). split.
    + apply map_keys_decorated. eapply decorated_perm; [|exact Hdec].
      rewrite <- Permutation_rev, stable_sort_perm. apply Permutation_rev.
    + apply StronglySorted_map.
      apply (StronglySorted_rev (key_le key_lt)), Hsorted.
  - exists (map fst (stable_sort key_lt (combine ks l))). split.
    + apply map_keys_decorated. eapply decorated_perm; [|exact Hdec].
      symmetry. apply stable_sort_perm.
    + apply StronglySorted_map, Hsorted.
Qed.

Lemma list_sort_returns {A} (key : A -> except skey) reverse l l' :
  list_sort key reverse l = Return l' ->
  exists ks, map_keys key l = Return ks /\ l' = sorted_by ks reverse l.
Proof.
  unfold list_sort. destruct (map_keys key l) as [ks|e]; [|discriminate].
  destruct (one_kind ks); simpl; [|discriminate].
  intros [= <-]. now exists ks.
Qed.

(** X10. Whenever [list_books] returns with a valid sort field, the sort
    keys of the result are in order: never decreasing along the list when
    [ascending], never increasing otherwise (integers for the id, lowercased
    strings compared by code points for the title and the author). *)
Theorem list_books_result_ordered self search sort_by ascending l :
  mem sort_by valid_fields = true ->
  fst (list_books search (Some sort_by) ascending self) = Return l ->
  exists ks, map_keys (sort_key sort_by) l = Return ks
             /\ StronglySorted (key_order ascending) ks.
Proof.
  intros Hv H. rewrite list_books_valid in H by exact Hv. cbn [fst] in H.
  apply list_sort_returns in H. destruct H as (ks & Hk & ->).
  destruct (sorted_by_ordered _ _ (negb ascending) _ Hk) as (ks' & Hk' & Hs).
  exists ks'. split; [exact Hk'|]. now rewrite negb_involutive in Hs.
Qed.

Lemma list_books_result_ordered_witness :
  mem "author" valid_fields = true
  /\ fst (list_books (Some "book") (Some "author") false (snd (run sort_session)))
     = Return [mkBook "1" "C Book" "Author C"; mkBook "3" "B Book" "Author B";
               mkBook "2" "A Book" "Author A"]
  /\ exists ks,
       map_keys (sort_key "author")
         [mkBook "1" "C Book" "Author C"; mkBook "3" "B Book" "Author B";
          mkBook "2" "A Book" "Author A"] = Return ks
       /\ StronglySorted (key_order false) ks.
Proof.
  split; [reflexivity|]. split; [reflexivity|].
  exact (list_books_result_ordered (snd (run sort_session)) (Some "book") "author"
           false _ eq_refl eq_refl).
Defined.

Lemma provided_some o s : provided o = Some s -> o = Some s /\ s <> "".
Proof.
  destruct o as [x|]; simpl; [|discriminate].
  destruct x; simpl; [discriminate|]. intros [= <-]. split; [reflexivity | discriminate].
Qed.

(** X11. In every reachable state the only exception of [list_books] is the
    validation error of a non-empty sort field outside the set: reading the
    ids as numbers and comparing the keys never fail. *)
Theorem list_books_raises_only_validation log self search sort_by ascending e :
  reachable log self ->
  fst (list_books search sort_by ascending self) = Raise e ->
  exists sb, sort_by = Some sb /\ sb <> "" /\ mem sb valid_fields = false
             /\ e = sort_error sb.
Proof.
  intros Hr H. rewrite list_books_eq in H. cbn [fst] in H.
  destruct (provided sort_by) as [sb|] eqn:Ep; [|discriminate].
  apply provided_some in Ep. destruct Ep as [-> Hne].
  exists sb. destruct (mem sb valid_fields) eqn:Hv; cbn [negb] in H.
  - exfalso.
    destruct (ids_numeric_keys search sb self Hv) as [ks Hk].
    { intros _. eapply reachable_ids_numeric; eassumption. }
    rewrite (list_sort_eq _ _ _ ks Hk) in H; [discriminate|].
    now apply map_keys_one_kind in Hk.
  - injection H as <-. repeat split; trivial.
Qed.

Lemma list_books_raises_only_validation_witness :
  reachable (fst (run id_session)) (snd (run id_session))
  /\ fst (list_books (Some "book") (Some "price") true (snd (run id_session)))
     = Raise (sort_error "price")
  /\ exists sb, Some "price" = Some sb /\ sb <> "" /\ mem sb valid_fields = false
                /\ sort_error "price" = sort_error sb.
Proof.
  pose proof (run_reachable id_session) as Hr.
  split; [exact Hr|]. split; [reflexivity|].
  exact (list_books_raises_only_validation _ _ (Some "book") (Some "price") true _
           Hr eq_refl).
Defined.

(** X12. A non-empty sort field outside the set is rejected in every state,
    before any key is computed: whatever the records, the search term and
    the direction, [list_books] raises the error whose message quotes the
    field, and leaves the catalog as it is. *)
Theorem list_books_rejects_unknown_field self search sort_by ascending :
  sort_by <> "" -> mem sort_by valid_fields = false ->
  list_books search (Some sort_by) ascending self
  = (Raise (ValueError ("Invalid sort field: " ++ sort_by
                        ++ ". Must be one of " ++ repr_set valid_fields)), self)
  /\ Substring sort_by ("Invalid sort field: " ++ sort_by
                        ++ ". Must be one of " ++ repr_set valid_fields).
Proof.
  intros Hne Hv. split.
  - rewrite list_books_eq.
    assert (Hp : provided (Some sort_by) = Some sort_by)
      by (destruct sort_by; [congruence | reflexivity]).
    now rewrite Hp, Hv.
  - now exists "Invalid sort field: ", (". Must be one of " ++ repr_set valid_fields).
Qed.

Lemma list_books_rejects_unknown_field_witness :
  "year" <> "" /\ mem "year" valid_fields = false
  /\ list_books None (Some "year") false
       {| books := [mkBook "not a number" "T" "A"]; _next_id := 1 |}
     = (Raise (ValueError
                 "Invalid sort field: year. Must be one of {'id', 'title', 'author'}"),
        {| books := [mkBook "not a number" "T" "A"]; _next_id := 1 |}).
Proof.
  split; [discriminate|]. split; [reflexivity|].
  apply (list_books_rejects_unknown_field
           {| books := [mkBook "not a number" "T" "A"]; _next_id := 1 |}
           None "year" false); [discriminate | reflexivity].
Defined.

(** ** Searching and sorting commute *)

Section StableSortFilter.
Context {K A : Type}.
Variable lt : K -> K -> bool.
Variable q : K * A -> bool.

Hypothesis lt_irrefl : forall a, lt a a = false.
Hypothesis lt_trans : forall a b c, lt a b = true -> lt b c = true -> lt a c = true.
Hypothesis lt_total : forall a b, lt a b = false -> lt b a = false -> a = b.

Lemma insert_le_all (x : K * A) l :
  Forall (key_le lt x) l -> insert lt x l = x :: l.
Proof.
  destruct 1 as [|y l Hy _]; [reflexivity|]. unfold key_le in Hy.
  cbn [insert]. now rewrite Hy.
Qed.

Lemma insert_filter (x : K * A) l :
  StronglySorted (key_le lt) l ->
  filter q (insert lt x l)
  = if q x then insert lt x (filter q l) else filter q l.
Proof.
  induction 1 as [|y l Hs IH Hy]; [simpl; now destruct (q x)|].
  cbn [insert]. destruct (lt (fst y) (fst x)) eqn:E.
  - cbn [filter]. rewrite IH. destruct (q y), (q x); trivial.
    cbn [insert]. now rewrite E.
  - cbn [filter]. destruct (q x); [|reflexivity].
    symmetry. apply insert_le_all.
    assert (Hall : Forall (key_le lt x) (y :: l)).
    { constructor; [exact E|]. eapply Forall_impl; [|exact Hy].
      intros z Hz. apply (key_le_trans lt lt_trans lt_total x y z); assumption. }
    rewrite Forall_forall in *. intros z Hz. apply Hall.
    change (In z (filter q (y :: l))) in Hz. now apply filter_In in Hz.
Qed.

(** Sorting the selected elements selects from the sorted list. *)
Lemma stable_sort_filter (l : list (K * A)) :
  stable_sort lt (filter q l) = filter q (stable_sort lt l).
Proof.
  induction l as [|x l IH]; [reflexivity|].
  cbn [stable_sort filter].
  rewrite insert_filter
    by apply (stable_sort_sorted lt lt_irrefl lt_trans lt_total).
  destruct (q x); [|exact IH]. cbn [stable_sort]. now rewrite IH.
Qed.
End StableSortFilter.

Lemma map_snd_filter {K A} (p : A -> bool) (kv : list (K * A)) :
  map snd (filter (fun x => p (snd x)) kv) = filter p (map snd kv).
Proof.
  induction kv as [|x kv IH]; [reflexivity|]. simpl.
  destruct (p (snd x)); simpl; now rewrite IH.
Qed.

Lemma map_keys_filter {A} (key : A -> except skey) (p : A -> bool) l : forall ks,
  map_keys key l = Return ks ->
  exists ks', map_keys key (filter p l) = Return ks'
              /\ combine ks' (filter p l)
                 = filter (fun x => p (snd x)) (combine ks l).
Proof.
  induction l as [|x l IH]; intros ks; simpl.
  - intros [= <-]. now exists [].
  - destruct (key x) as [k|e] eqn:Ek; [|discriminate].
    destruct (map_keys key l) as [ks0|e]; [|discriminate].
    intros [= <-]. destruct (IH ks0 eq_refl) as (ks' & Hk' & Hc).
    cbn [combine filter snd]. destruct (p x).
    + exists (k :: ks'). simpl. rewrite Ek, Hk'. split; [reflexivity|]. now rewrite Hc.
    + now exists ks'.
Qed.

Lemma sorted_by_filter {A} (key : A -> except skey) (p : A -> bool) l ks ks' reverse :
  map_keys key l = Return ks ->
  map_keys key (filter p l) = Return ks' ->
  sorted_by ks' reverse (filter p l) = filter p (sorted_by ks reverse l).
Proof.
  intros Hk Hk'. destruct (map_keys_filter key p l ks Hk) as (ks0 & Hk0 & Hc).
  rewrite Hk' in Hk0. injection Hk0 as <-.
  unfold sorted_by. rewrite Hc, <- map_snd_filter. f_equal.
  destruct reverse.
  - rewrite <- filter_rev.
    rewrite (stable_sort_filter key_lt _ key_lt_irrefl key_lt_trans key_lt_total).
    now rewrite <- filter_rev.
  - apply (stable_sort_filter key_lt _ key_lt_irrefl key_lt_trans key_lt_total).
Qed.

(** X13. Searching and sorting commute: with a valid sort field (the ids
    being numbers when the field is the id), the sorted result of a search
    is the list obtained by sorting the whole catalog and then keeping the
    records that match the term. *)
Theorem list_books_search_commutes_with_sort self s sort_by ascending :
  s <> "" ->
  mem sort_by valid_fields = true ->
  (sort_by = "id" -> ids_numeric (books self)) ->
  exists l_all,
    list_books None (Some sort_by) ascending self = (Return l_all, self)
    /\ list_books (Some s) (Some sort_by) ascending self
       = (Return (filter (matches (lower s)) l_all), self).
Proof.
  intros Hs Hv Hid.
  assert (Hsearch : search_books (Some s) (books self)
                    = filter (matches (lower s)) (books self))
    by (unfold search_books; destruct s; [congruence | reflexivity]).
  destruct (ids_numeric_keys None sort_by self Hv Hid) as [ks Hk].
  destruct (ids_numeric_keys (Some s) sort_by self Hv Hid) as [ks' Hk'].
  exists (sorted_by ks (negb ascending) (books self)).
  split; [now apply list_books_sorted_by|].
  rewrite (list_books_sorted_by _ _ _ _ ks' Hv Hk').
  rewrite Hsearch in *. cbn [search_books provided] in Hk.
  now rewrite (sorted_by_filter (sort_key sort_by) _ _ ks ks').
Qed.

Lemma list_books_search_commutes_with_sort_witness :
  "or b" <> "" /\ mem "title" valid_fields = true
  /\ exists l_all,
       fst (list_books None (Some "title") false (snd (run sort_session))) = Return l_all
       /\ List.length l_all = 3%nat
       /\ fst (list_books (Some "or b") (Some "title") false (snd (run sort_session)))
          = Return (filter (matches (lower "or b")) l_all)
       /\ filter (matches (lower "or b")) l_all = [mkBook "3" "B Book" "Author B"].
Proof.
  split; [discriminate|]. split; [reflexivity|].
  destruct (list_books_search_commutes_with_sort (snd (run sort_session)) "or b" "title"
              false) as (l_all & H1 & H2); try discriminate; [reflexivity|].
  exists l_all.
  assert (E : fst (list_books None (Some "title") false (snd (run sort_session)))
              = Return [mkBook "1" "C Book" "Author C"; mkBook "3" "B Book" "Author B";
                        mkBook "2" "A Book" "Author A"]) by reflexivity.
  rewrite H2. rewrite H1 in E |- *. injection E as ->. repeat split.
Defined.





(** X15. The search does not depend on the case of the letters of the term:
    two terms with the same lowercase form, such as a term and its lowercase
    form, give the same outcome for every sort field and direction. *)
Theorem list_books_search_ignores_case self s1 s2 sort_by ascending :
  lower s1 = lower s2 ->
  list_books (Some s1) sort_by ascending self
  = list_books (Some s2) sort_by ascending self
  /\ list_books (Some (lower s1)) sort_by ascending self
     = list_books (Some s1) sort_by ascending self.
Proof.
  intros H.
  assert (Hsame : forall a b l, lower a = lower b ->
            search_books (Some a) l = search_books (Some b) l).
  { intros a b l E. unfold search_books. cbn [provided].
    destruct a, b; try discriminate E; trivial. cbn [truthy]. now rewrite E. }
  rewrite !list_books_eq. split.
  - now rewrite (Hsame s1 s2 _ H).
  - now rewrite (Hsame (lower s1) s1 _ (lower_idem s1)).
Qed.

Lemma list_books_search_ignores_case_witness :
  lower "a bOOk" = lower "A BOOK"
  /\ list_books (Some "a bOOk") (Some "title") true (snd (run sort_session))
     = list_books (Some "A BOOK") (Some "title") true (snd (run sort_session))
  /\ fst (list_books (Some "a bOOk") (Some "title") true (snd (run sort_session)))
     = Return [mkBook "2" "A Book" "Author A"].
Proof.
  split; [reflexivity|].
  destruct (list_books_search_ignores_case (snd (run sort_session)) "a bOOk" "A BOOK"
              (Some "title") true eq_refl) as [H _].
  split; [exact H | reflexivity].
Defined.

(** ** Listing and looking up *)

Lemma get_loop_nodup l book :
  NoDup (map id l) -> In book l -> get_loop (id book) l = Some book.
Proof.
  induction l as [|b l IH]; simpl; [tauto|].
  intros Hnd [->|Hin]; [now rewrite String.eqb_refl|].
  inversion Hnd as [|? ? Hb Hnd']; subst.
  destruct (String.eqb_spec (id b) (id book)) as [E|E]; [|now apply IH].
  exfalso. apply Hb. rewrite E. now apply in_map.
Qed.

Lemma list_books_incl search sort_by ascending self l book :
  fst (list_books search sort_by ascending self) = Return l ->
  In book l -> In book (books self).
Proof.
  rewrite list_books_eq. cbn [fst]. intros H Hin.
  apply (search_books_incl search).
  destruct (provided sort_by) as [sb|]; [|now injection H as <-].
  destruct (negb (mem sb valid_fields)); [discriminate|].
  apply list_sort_returns in H. destruct H as (ks & Hk & ->).
  eapply Permutation_in;
    [apply (sorted_by_perm _ _ (negb ascending) _ Hk) | exact Hin].
Qed.

(** X16. When the ids of the catalog are pairwise distinct, every record
    that [list_books] returns, for any search term, sort field and
    direction, is a record of the catalog and is the one that [get_book]
    returns for its id. *)
Theorem list_books_records_retrievable self search sort_by ascending l :
  NoDup (map id (books self)) ->
  fst (list_books search sort_by ascending self) = Return l ->
  forall book, In book l ->
    In book (books self) /\ fst (get_book (id book) self) = Return (Some book).
Proof.
  intros Hnd H book Hin.
  assert (Hb : In book (books self)) by (eapply list_books_incl; eassumption).
  split; [exact Hb|]. rewrite get_book_eq. cbn [fst]. f_equal.
  now apply get_loop_nodup.
Qed.

Lemma list_books_records_retrievable_witness :
  NoDup (map id (books (snd (run sort_session))))
  /\ fst (list_books (Some "or b") (Some "title") false (snd (run sort_session)))
     = Return [mkBook "3" "B Book" "Author B"]
  /\ fst (get_book "3" (snd (run sort_session)))
     = Return (Some (mkBook "3" "B Book" "Author B")).
Proof.
  destruct (reachable_inv _ _ (run_reachable sort_session)) as (_ & _ & _ & _ & Hnd & _).
  split; [exact Hnd|]. split; [reflexivity|].
  apply (list_books_records_retrievable (snd (run sort_session)) (Some "or b")
           (Some "title") false _ Hnd eq_refl (mkBook "3" "B Book" "Author B")).
  now left.
Defined.

(** ** _sort_books *)

(** X17. The helper [_sort_books] of the refactored service, called on any
    list: it raises the validation error for every field outside the set,
    the empty string included; for a field of the set (the ids being numbers
    when the field is the id) it returns a rearrangement of the list, stable
    for both directions, whose keys are in order. *)
Theorem sort_books_spec l sort_by ascending self :
  (mem sort_by valid_fields = false ->
   Refactor._sort_books l sort_by ascending self = (Raise (sort_error sort_by), self))
  /\ (mem sort_by valid_fields = true ->
      (sort_by = "id" -> ids_numeric l) ->
      exists l' ks,
        Refactor._sort_books l sort_by ascending self = (Return l', self)
        /\ Permutation l' l
        /\ (forall k, filter (has_key sort_by k) l' = filter (has_key sort_by k) l)
        /\ map_keys (sort_key sort_by) l' = Return ks
        /\ StronglySorted (key_order ascending) ks).
Proof.
  unfold Refactor._sort_books. split.
  - now intros ->.
  - intros Hv Hid. rewrite Hv. cbn [negb].
    destruct (ids_numeric_keys None sort_by {| books := l; _next_id := 0 |} Hv Hid)
      as [ks Hk].
    cbn [search_books provided books] in Hk.
    destruct (sorted_by_ordered _ _ (negb ascending) _ Hk) as (ks' & Hk' & Hs).
    rewrite negb_involutive in Hs.
    exists (sorted_by ks (negb ascending) l), ks'. unfold lift.
    rewrite (list_sort_eq _ _ _ ks Hk) by (now apply map_keys_one_kind in Hk).
    repeat split; trivial.
    + now apply (sorted_by_perm (sort_key sort_by)).
    + intros k. now apply (sorted_by_stable (sort_key sort_by)).
Qed.

Lemma sort_books_spec_witness :
  mem "" valid_fields = false
  /\ Refactor._sort_books (books same_title) "" true same_title
     = (Raise (sort_error ""), same_title)
  /\ mem "title" valid_fields = true
  /\ exists l' ks,
       Refactor._sort_books (books same_title) "title" false same_title
       = (Return l', same_title)
       /\ Permutation l' (books same_title)
       /\ map_keys (sort_key "title") l' = Return ks
       /\ StronglySorted (key_order false) ks.
Proof.
  destruct (sort_books_spec (books same_title) "" true same_title) as [H1 _].
  destruct (sort_books_spec (books same_title) "title" false same_title) as [_ H2].
  split; [reflexivity|]. split; [now apply H1|]. split; [reflexivity|].
  destruct (H2 eq_refl) as (l' & ks & E & Hp & _ & Hk & Hs); [discriminate|].
  now exists l', ks.
Defined.

(** ** demo *)

(** X18. [demo()] runs to its end: none of its assertions fails and no
    exception escapes; it prints its closing line once and leaves a service
    that holds the second record only, the counter being 3. *)
Theorem demo_completes st :
  demo st
  = (inl tt,
     ({| books := [mkBook "2" "To Kill a Mockingbird" "Harper Lee"]; _next_id := 3 |},
      (snd st ++ ["Demo completed successfully! All assertions passed."])%list)).
Proof. destruct st as [self out]. reflexivity. Qed.
